(** * Binary-to-decimal conversion of IEEE-754 bit patterns (lib/btod.cpp)

    A shallow embedding of the decimal big integer [Bigint], the memoised
    power generator [power_of], the rounding and formatting driver
    [fp_btod], the bit-pattern decoder [ieee_btod] and the two entry
    points [float_btod] and [double_btod], followed by the properties
    established about them.

    Conventions of the embedding:
    - machine integers are [Z]; a store into an [unsigned char] goes
      through [uchar], a value received as [unsigned] through [u32], an
      [unsigned long long] through [u64];
    - [vector<unsigned char>] is [list Z], read with [!!!] and written with
      [<[i := x]>]; every index the source uses is in range, which the
      loops below make explicit by their counters;
    - a failing [assert] aborts the program (the source includes [<cassert>]
      and does not define [NDEBUG]): every operation that can reach one
      returns [option], with [None] for the abort;
    - the two process-wide maps [powers2] and [powers5] are threaded
      explicitly as a [caches] record. *)

From Stdlib Require Import ZArith Lia Ascii String.
From Equations Require Import Equations.
From stdpp Require Import base list gmap strings.

Local Open Scope Z_scope.

(** ** Machine integers *)

Definition uchar (z : Z) : Z := z mod 256.
Definition u32 (z : Z) : Z := z mod 2 ^ 32.
Definition u64 (z : Z) : Z := z mod 2 ^ 64.

(** ** Counted loops

    [for_loop count i body s] runs [body i], [body (i + 1)], ..., [count]
    times in all: the C loop [for (j = i; j < i + count; ++j)] on the
    state [s]. *)

Fixpoint for_loop {St : Type} (count i : nat) (body : nat → St → St) (s : St) : St :=
  match count with
  | O => s
  | S count' => for_loop count' (S i) body (body i s)
  end.

(** ** class Bigint *)

Module Bigint.

(** [vector<unsigned char> digits], least significant digit first. *)
Abbreviation t := (list Z) (only parsing).

(** One iteration of the loop of [normalise]; the state is the digit
    vector and the running [carry]. *)
Definition normalise_body (i : nat) (s : list Z * Z) : list Z * Z :=
  let '(digits, carry) := s in
  let carry := carry + digits !!! i in
  (<[i := uchar (Z.rem carry 10)]> digits, Z.quot carry 10).

(** [void normalise(size_t i = 0)]: [None] when [assert(!carry)] fails. *)
Definition normalise (i : nat) (digits : t) : option t :=
  let '(digits, carry) :=
    for_loop (length digits - i) i normalise_body (digits, 0) in
  if decide (carry = 0) then Some digits else None.

(** The [while] loop of [contract], counting [size] down. *)
Fixpoint contract_size (size : nat) (digits : t) : nat :=
  match size with
  | O => O
  | S size' =>
      if decide (digits !!! size' = 0) then contract_size size' digits
      else size
  end.

Definition contract (digits : t) : t :=
  resize (contract_size (length digits) digits) 0 digits.

Definition expand (size : nat) (digits : t) : t :=
  if decide (length digits < size)%nat then resize size 0 digits else digits.

(** [sprintf(buf, "%.0llu", val)]: the decimal digits of [val], most
    significant first, and none at all for zero.  An [unsigned long long]
    has at most 20 of them. *)
Fixpoint decimal_lsb (fuel : nat) (val : Z) : list Z :=
  match fuel with
  | O => []
  | S fuel' =>
      if decide (val = 0) then []
      else (val mod 10) :: decimal_lsb fuel' (val / 10)
  end.

Definition sprintf_llu (val : Z) : list Z := rev (decimal_lsb 20 val).

(** [Bigint(unsigned long long val, size_t extradigits = 0,
    int filldigit = 0)]: the padding, then the characters of [buf] pushed
    from the last to the first. *)
Definition make (val : Z) (extradigits : nat) (filldigit : Z) : t :=
  let digits := resize extradigits (uchar filldigit) [] in
  let buf := sprintf_llu (u64 val) in
  digits ++ rev buf.

(** [operator+=] *)
Definition add_assign (self rhs : t) : option t :=
  let digits := expand (length rhs + 1) self in
  let digits :=
    for_loop (length rhs) 0
      (λ i digits, <[i := uchar (digits !!! i + rhs !!! i)]> digits) digits in
  digits ← normalise 0 digits;
  Some (contract digits).

(** The body of the outer loop of [operator*=]. *)
Definition mul_body (rhs : t) (i : nat) (digits : t) : option t :=
  let digit := digits !!! i in
  let digits := <[i := 0]> digits in
  let digits :=
    for_loop (length rhs) 0
      (λ j digits,
         <[(i + j)%nat := uchar (digits !!! (i + j)%nat + rhs !!! j * digit)]> digits)
      digits in
  normalise i digits.

(** [for (size_t i = oldsize; i-- > 0;)] *)
Fixpoint mul_loop (rhs : t) (i : nat) (digits : t) : option t :=
  match i with
  | O => Some digits
  | S i' => digits ← mul_body rhs i' digits; mul_loop rhs i' digits
  end.

(** [operator*=] *)
Definition mul_assign (self rhs : t) : option t :=
  let oldsize := length self in
  let digits := expand (length self + length rhs + 1) self in
  digits ← mul_loop rhs oldsize digits;
  Some (contract digits).

Definition ndigits (digits : t) : Z := Z.of_nat (length digits).

(** [int digit(int i) const] *)
Definition digit (digits : t) (i : Z) : Z :=
  if decide (0 ≤ i ∧ i < Z.of_nat (length digits))
  then digits !!! Z.to_nat i else 0.

End Bigint.

(** ** The power cache *)

(** [static map<unsigned, Bigint> powers2, powers5;] *)
Record caches := Caches {
  powers2 : gmap Z (list Z);
  powers5 : gmap Z (list Z)
}.

Definition no_caches : caches := Caches ∅ ∅.

(** [auto &powers = (v == 2 ? powers2 : powers5);] *)
Definition powers (v : Z) (st : caches) : gmap Z (list Z) :=
  if decide (v = 2) then powers2 st else powers5 st.

(** [powers[n] = a;] *)
Definition set_powers (v n : Z) (a : list Z) (st : caches) : caches :=
  if decide (v = 2) then Caches (<[n := a]> (powers2 st)) (powers5 st)
  else Caches (powers2 st) (<[n := a]> (powers5 st)).

(** [n & -n] on [unsigned]. *)
Definition lowbit (n : Z) : Z := Z.land n (u32 (- n)).

(** Arithmetic of [lowbit], needed for the recursion of [power_of]. *)

Lemma land_double a b : Z.land (2 * a) (2 * b) = 2 * Z.land a b.
Proof.
  apply Z.bits_inj'. intros i Hi. rewrite Z.land_spec.
  destruct (Z.eq_dec i 0) as [->|Hne].
  - now rewrite !Z.testbit_even_0.
  - replace i with (Z.succ (i - 1)) by lia.
    rewrite !Z.testbit_even_succ by lia. now rewrite Z.land_spec.
Qed.

Lemma land_odd a b : Z.land (2 * a + 1) (2 * b + 1) = 2 * Z.land a b + 1.
Proof.
  apply Z.bits_inj'. intros i Hi. rewrite Z.land_spec.
  destruct (Z.eq_dec i 0) as [->|Hne].
  - now rewrite !Z.testbit_odd_0.
  - replace i with (Z.succ (i - 1)) by lia.
    rewrite !Z.testbit_odd_succ by lia. now rewrite Z.land_spec.
Qed.

Lemma land_opp_pos p :
  0 < Z.land (Z.pos p) (- Z.pos p) <= Z.pos p /\
  (Z.odd (Z.pos p) = true -> Z.land (Z.pos p) (- Z.pos p) = 1).
Proof.
  induction p as [q IH|q IH|].
  - replace (Z.pos q~1) with (2 * Z.pos q + 1) by lia.
    replace (- (2 * Z.pos q + 1)) with (2 * Z.lnot (Z.pos q) + 1)
      by (unfold Z.lnot; lia).
    rewrite land_odd, Z.land_lnot_diag. lia.
  - replace (Z.pos q~0) with (2 * Z.pos q) by lia.
    replace (- (2 * Z.pos q)) with (2 * - Z.pos q) by lia.
    rewrite land_double. split; [lia|].
    rewrite Z.odd_mul. discriminate.
  - now compute.
Qed.

Lemma u32_range n : 0 <= u32 n < 2 ^ 32.
Proof. apply Z.mod_pos_bound. lia. Qed.

Lemma u32_id n : 0 <= n < 2 ^ 32 -> u32 n = n.
Proof. apply Z.mod_small. Qed.

Lemma lowbit_land_opp n : 0 <= n < 2 ^ 32 -> lowbit n = Z.land n (- n).
Proof.
  intros Hn. unfold lowbit, u32.
  rewrite <- Z.land_ones by lia.
  rewrite Z.land_assoc, (Z.land_comm n), <- Z.land_assoc, (Z.land_comm _ n).
  rewrite (Z.land_ones n) by lia. rewrite Z.mod_small by lia. apply Z.land_comm.
Qed.

Lemma lowbit_0 : lowbit 0 = 0.
Proof. reflexivity. Qed.

Lemma lowbit_bounds n : 0 < n < 2 ^ 32 -> 0 < lowbit n <= n.
Proof.
  intros Hn. rewrite lowbit_land_opp by lia.
  destruct n as [|p|p]; try lia. apply land_opp_pos.
Qed.

Lemma lowbit_odd n : 0 < n < 2 ^ 32 -> Z.odd n = true -> lowbit n = 1.
Proof.
  intros Hn. rewrite lowbit_land_opp by lia.
  destruct n as [|p|p]; try lia. apply land_opp_pos.
Qed.

(** [static Bigint power_of(int v, unsigned n)].  The parameter [n] is an
    [unsigned]: whatever is passed is read modulo [2^32].  The recursion is
    on that value, which every recursive call decreases. *)
Equations? power_of (v n : Z) (st : caches) : option (list Z * caches)
  by wf (Z.to_nat (u32 n)) lt :=
power_of v n st with decide (v = 2 ∨ v = 5) => {
  | right _ := None
  | left _ with powers v st !! u32 n => {
    | Some a := Some (a, st)
    | None with decide (u32 n = lowbit (u32 n)) => {
      | right Hne :=
          '(a, st) ← power_of v (u32 n - lowbit (u32 n)) st;
          '(b, st) ← power_of v (lowbit (u32 n)) st;
          a ← Bigint.mul_assign a b;
          Some (a, set_powers v (u32 n) a st)
      | left Heq with decide (1 < u32 n) => {
        | left Hgt :=
            '(a, st) ← power_of v (u32 n / 2) st;
            let b := a in
            a ← Bigint.mul_assign a b;
            Some (a, set_powers v (u32 n) a st)
        | right _ :=
            let a := Bigint.make (if decide (u32 n = 1) then v else 1) 0 0 in
            Some (a, set_powers v (u32 n) a st) } } } }.
Proof.
  - pose proof (u32_range n).
    assert (0 ≤ u32 n / 2 < u32 n) by (Z.div_mod_to_equations; lia).
    rewrite u32_id by lia. apply Z2Nat.inj_lt; lia.
  - pose proof (u32_range n) as Hn.
    assert (u32 n ≠ 0) by (intros E; rewrite E in Hne; by apply Hne).
    pose proof (lowbit_bounds (u32 n)). rewrite u32_id by lia.
    apply Z2Nat.inj_lt; lia.
  - pose proof (u32_range n) as Hn.
    assert (u32 n ≠ 0) by (intros E; rewrite E in Hne; by apply Hne).
    pose proof (lowbit_bounds (u32 n)). rewrite u32_id by lia.
    apply Z2Nat.inj_lt; lia.
Qed.

(** ** Formatting *)

(** ['0' + d] pushed onto a [std::string]. *)
Definition digit_char (d : Z) : ascii := ascii_of_N (Z.to_N ((48 + d) mod 256)).

Definition push_back (s : string) (c : ascii) : string := s +:+ String c EmptyString.

(** [int] values produced by a conversion from [unsigned long long]. *)
Definition int32 (z : Z) : Z := (z + 2 ^ 31) mod 2 ^ 32 - 2 ^ 31.

(** [sprintf(expstr, "e%+03d", x)]: the sign always, and the magnitude padded
    with zeros to two digits (the field width 3 counts the sign).  An
    [int] has at most 10 digits. *)
Definition sprintf_e03d (x : Z) : string :=
  let buf := rev (Bigint.decimal_lsb 10 (Z.abs x)) in
  let buf := replicate (2 - length buf) 0 ++ buf in
  String "e" (String (if decide (x < 0) then "-" else "+")%char
    (string_of_list_ascii (digit_char <$> buf))).

(** ** The conversion driver *)

(** Lines 120-127 of [fp_btod]: [val] scaled by the power of two or of
    five, and [power10] before [digitpos] is added to it.  The [int]
    arithmetic of [fp_btod] is carried out in [Z]. *)
Definition fp_btod_scale (mantissa power2 : Z) (st : caches)
  : option (list Z * Z * caches) :=
  let val := Bigint.make mantissa 0 0 in
  let power10 := 0 in
  if decide (0 < power2) then
    '(p, st) ← power_of 2 power2 st;
    val ← Bigint.mul_assign val p;
    Some (val, power10, st)
  else if decide (power2 < 0) then
    '(p, st) ← power_of 5 (- power2) st;
    val ← Bigint.mul_assign val p;
    Some (val, power10 + power2, st)
  else Some (val, power10, st).

(** Lines 143-150 of [fp_btod]: rounding to nearest at the digit below
    [digitpos - precision + 1], ties to even. *)
Definition fp_btod_round (val : list Z) (digitpos precision : Z) : option (list Z) :=
  if decide (0 ≤ digitpos - precision) then
    if decide (5 ≤ Bigint.digit val (digitpos - precision)) then
      if decide (Z.land (Bigint.digit val (digitpos - precision + 1)) 1 ≠ 0)
      then Bigint.add_assign val
             (Bigint.make 5 (Z.to_nat (digitpos - precision)) 0)
      else Bigint.add_assign val
             (Bigint.make 4 (Z.to_nat (digitpos - precision)) 9)
    else Some val
  else Some val.

(** Lines 152-161 of [fp_btod]: the digits, read from [digitpos] downwards,
    and the exponent. *)
Definition fp_btod_format (val : list Z) (digitpos power10 precision : Z) : string :=
  let ret := EmptyString in
  let ret := push_back ret (digit_char (Bigint.digit val digitpos)) in
  let digitpos := digitpos - 1 in
  let ret := push_back ret "."%char in
  let '(ret, digitpos) :=
    for_loop (Z.to_nat (precision - 1)) 1
      (λ _ '(ret, digitpos),
         (push_back ret (digit_char (Bigint.digit val digitpos)), digitpos - 1))
      (ret, digitpos) in
  ret +:+ sprintf_e03d (if decide (Bigint.ndigits val = 0) then 0 else power10).

(** [static string fp_btod(unsigned long long mantissa, int power2,
    int precision)]: [digitpos] and [power10] are fixed before the
    rounding. *)
Definition fp_btod (mantissa power2 precision : Z) (st : caches)
  : option (string * caches) :=
  '(val, power10, st) ← fp_btod_scale mantissa power2 st;
  let digitpos := Bigint.ndigits val - 1 in
  let power10 := power10 + digitpos in
  val ← fp_btod_round val digitpos precision;
  Some (fp_btod_format val digitpos power10 precision, st).

(** ** The bit-pattern decoder and the entry points *)

(** [string ieee_btod(unsigned long long val, int ebits, int mbits,
    int digits)].  The shifts are those of a 64-bit [1ULL]. *)
Definition ieee_btod (val ebits mbits digits : Z) (st : caches)
  : option (string * caches) :=
  let val := u64 val in
  let ret :=
    if decide (Z.land val (u64 (Z.shiftl 1 (ebits + mbits))) ≠ 0)
    then "-"%string else " "%string in
  let exp := int32 (Z.land (Z.shiftr val mbits) (u64 (u64 (Z.shiftl 1 ebits) - 1))) in
  let val := Z.land val (u64 (u64 (Z.shiftl 1 mbits) - 1)) in
  if decide (exp = int32 (u64 (u64 (Z.shiftl 1 ebits) - 1))) then
    Some (ret +:+ (if decide (val ≠ 0) then "NaN" else "Inf")%string, st)
  else
    let '(val, exp) :=
      if decide (exp ≠ 0) then (Z.lor val (u64 (Z.shiftl 1 mbits)), exp - 1)
      else (val, exp) in
    let exp := int32 (u64 (exp - u64 (u64 (Z.shiftl 1 (ebits - 1)) - 2 + mbits))) in
    '(s, st) ← fp_btod val exp digits st;
    Some (ret +:+ s, st).

(** [string float_btod(unsigned val)] *)
Definition float_btod (val : Z) (st : caches) : option (string * caches) :=
  ieee_btod (u32 val) 8 23 9 st.

(** [string double_btod(unsigned long long val)] *)
Definition double_btod (val : Z) (st : caches) : option (string * caches) :=
  ieee_btod (u64 val) 11 52 17 st.

(** The string returned in a process whose caches are still empty. *)
Definition fresh {A} (f : caches → option (A * caches)) : option A :=
  fst <$> f no_caches.

(** ** Specification vocabulary *)

Module BigintSpec.

(** The number a digit vector stands for. *)
Fixpoint value (digits : list Z) : Z :=
  match digits with
  | [] => 0
  | d :: digits' => d + 10 * value digits'
  end.

(** What an [unsigned char] can hold. *)
Definition bytes (digits : list Z) : Prop := Forall (λ d, 0 ≤ d < 256) digits.

(** Every stored digit is a decimal digit. *)
Definition digits_ok (digits : list Z) : Prop := Forall (λ d, 0 ≤ d ≤ 9) digits.

(** The representation invariant: decimal digits, and no zero at the most
    significant end (so that zero is the empty vector). *)
Definition canonical (digits : list Z) : Prop :=
  digits_ok digits ∧ last digits ≠ Some 0.

(** Carry propagation over a whole vector, by recursion on the vector:
    what the loop of [normalise] computes from its starting index on. *)
Fixpoint carry_norm (carry : Z) (digits : list Z) : list Z * Z :=
  match digits with
  | [] => ([], carry)
  | d :: digits' =>
      let '(r, c) := carry_norm ((carry + d) / 10) digits' in
      ((carry + d) mod 10 :: r, c)
  end.

(** [digits[j] += rhs[j] * k] for every [j] below the length of [rhs], by
    recursion on the vectors: the inner loops of [operator+=] (with [k = 1])
    and [operator*=]. *)
Fixpoint zip_add (k : Z) (digits rhs : list Z) : list Z :=
  match digits, rhs with
  | d :: digits', r :: rhs' => uchar (d + r * k) :: zip_add k digits' rhs'
  | _, _ => digits
  end.

End BigintSpec.
Import BigintSpec.

(** Every cached entry is the canonical vector of the power it is filed
    under. *)
Definition cache_ok (st : caches) : Prop :=
  ∀ v n a, v = 2 ∨ v = 5 → powers v st !! n = Some a →
    canonical a ∧ value a = v ^ n.

(** The number [fp_btod] is to print, up to the power of ten it keeps in
    [power10]: [mantissa * 2^power2] is [scaled mantissa power2] when
    [power2 >= 0] and [scaled mantissa power2 * 10^power2] otherwise. *)
Definition scaled (mantissa power2 : Z) : Z :=
  mantissa * (if decide (0 < power2) then 2 ^ power2 else 5 ^ (- power2)).

(** [V / K] rounded to the nearest integer, ties to the even one. *)
Definition round_half_even (V K : Z) : Z :=
  let q := V / K in
  let r := V mod K in
  if decide (2 * r < K) then q
  else if decide (K < 2 * r) then q + 1
  else if Z.even q then q else q + 1.

(** The recursive calls of [power_of]: [power_of_call m n] when the body,
    run on a cache miss at the unsigned exponent [n], calls [power_of] at
    [m]. *)
Inductive power_of_call : Z → Z → Prop :=
  | call_rest n : u32 n = n → n ≠ lowbit n → power_of_call (n - lowbit n) n
  | call_lowbit n : u32 n = n → n ≠ lowbit n → power_of_call (lowbit n) n
  | call_half n : u32 n = n → n = lowbit n → 1 < n → power_of_call (n / 2) n.

(** The output grammar, as a decision procedure on the characters:
    [SIGN DIGIT '.' DIGIT{precision-1} 'e' EXPSIGN EXPDIGITS] or
    [SIGN ("NaN" | "Inf")]; [EXPDIGITS] are at least two digits, with a
    leading zero only when there are exactly two. *)
Definition is_digit (c : ascii) : bool :=
  (48 <=? N_of_ascii c)%N && (N_of_ascii c <=? 57)%N.

Definition is_char (c : ascii) (d : ascii) : bool := (N_of_ascii c =? N_of_ascii d)%N.

Definition is_expdigits (ds : list ascii) : bool :=
  forallb is_digit ds &&
  match ds with
  | [_; _] => true
  | d :: _ :: _ :: _ => negb (is_char d "0")
  | _ => false
  end.

Definition is_finite (precision : nat) (cs : list ascii) : bool :=
  match cs with
  | d :: dot :: cs' =>
      is_digit d && is_char dot "." &&
      bool_decide (length (take (precision - 1) cs') = (precision - 1)%nat) &&
      forallb is_digit (take (precision - 1) cs') &&
      match drop (precision - 1) cs' with
      | e :: sg :: ds =>
          is_char e "e" && (is_char sg "+" || is_char sg "-") && is_expdigits ds
      | _ => false
      end
  | _ => false
  end.

Definition btod_grammar (precision : nat) (s : string) : bool :=
  match list_ascii_of_string s with
  | sign :: cs =>
      (is_char sign " " || is_char sign "-") &&
      (bool_decide (cs = list_ascii_of_string "NaN") ||
       bool_decide (cs = list_ascii_of_string "Inf") ||
       is_finite precision cs)
  | [] => false
  end.

(** A call that returns a string of the grammar. *)
Definition btod_output_ok (precision : nat) (r : option string) : bool :=
  match r with
  | Some s => btod_grammar precision s
  | None => false
  end.

(** The [precision] digits of the significand [R], most significant
    first. *)
Definition sig_digits (precision R : Z) : list Z :=
  (λ i : nat, (R / 10 ^ (precision - 1 - Z.of_nat i)) mod 10)
    <$> seq 0 (Z.to_nat precision).

(** The text [fp_btod] returns for given digits and exponent. *)
Definition render (digits : list Z) (power10 : Z) : string :=
  match digits with
  | [] => EmptyString
  | d :: digits' =>
      String (digit_char d)
        (String "." (string_of_list_ascii (digit_char <$> digits')))
      +:+ sprintf_e03d power10
  end.

(** ** Counted loops *)

Lemma for_loop_ind {St} (P : St → Prop) (body : nat → St → St) count i s :
  (∀ j s, P s → P (body j s)) → P s → P (for_loop count i body s).
Proof.
  intros Hbody. revert i s.
  induction count as [|count IH]; intros i s Hs; simpl; auto.
Qed.

(** ** Values of digit vectors *)

Lemma value_app a b : value (a ++ b) = value a + 10 ^ Z.of_nat (length a) * value b.
Proof.
  induction a as [|d a IH]; simpl length; simpl value.
  - simpl. lia.
  - rewrite IH, Nat2Z.inj_succ, Z.pow_succ_r by lia. lia.
Qed.

Lemma value_replicate_0 n : value (replicate n 0) = 0.
Proof. induction n as [|n IH]; simpl; lia. Qed.

Lemma value_nonneg ds : Forall (λ d, 0 ≤ d) ds → 0 ≤ value ds.
Proof. induction 1; simpl; lia. Qed.

Lemma digits_ok_nonneg ds : digits_ok ds → Forall (λ d, 0 ≤ d) ds.
Proof. intros H. eapply Forall_impl; [done|]. simpl. lia. Qed.

Lemma digits_ok_bytes ds : digits_ok ds → bytes ds.
Proof. intros H. eapply Forall_impl; [done|]. simpl. lia. Qed.

Lemma bytes_nonneg ds : bytes ds → Forall (λ d, 0 ≤ d) ds.
Proof. intros H. eapply Forall_impl; [done|]. simpl. lia. Qed.

Lemma value_bound ds : digits_ok ds → 0 ≤ value ds < 10 ^ Z.of_nat (length ds).
Proof.
  induction 1 as [|d ds Hd Hds IH]; simpl length; simpl value.
  - simpl. lia.
  - rewrite Nat2Z.inj_succ, Z.pow_succ_r by lia. lia.
Qed.

(** Closed goals [bytes [..]], [digits_ok [..]] and [canonical [..]]. *)
Ltac solve_digits_ok :=
  repeat (apply Forall_cons_2; [lia|]); apply Forall_nil_2.
Ltac solve_digits :=
  lazymatch goal with
  | |- canonical _ => split; [solve_digits_ok | done]
  | |- _ => solve_digits_ok
  end.

(** ** [normalise] *)

Lemma uchar_small z : 0 ≤ z < 256 → uchar z = z.
Proof. apply Z.mod_small. Qed.

Lemma uchar_range z : 0 ≤ uchar z < 256.
Proof. apply Z.mod_pos_bound. lia. Qed.

Lemma carry_norm_spec ds : ∀ c, 0 ≤ c → Forall (λ d, 0 ≤ d) ds →
  length (carry_norm c ds).1 = length ds ∧
  digits_ok (carry_norm c ds).1 ∧
  0 ≤ (carry_norm c ds).2 ∧
  value (carry_norm c ds).1 + 10 ^ Z.of_nat (length ds) * (carry_norm c ds).2
    = c + value ds.
Proof.
  induction ds as [|d ds IH]; intros c Hc Hds.
  - simpl. repeat split; [constructor | lia | lia].
  - inversion_clear Hds as [|? ? Hd Hds'].
    assert (0 ≤ (c + d) / 10) as Hq by (apply Z.div_pos; lia).
    specialize (IH _ Hq Hds'). simpl carry_norm.
    destruct (carry_norm ((c + d) / 10) ds) as [r c'] eqn:E.
    simpl in IH |- *. destruct IH as (Hlen & Hok & Hc' & Hval).
    pose proof (Z.mod_pos_bound (c + d) 10 ltac:(lia)).
    pose proof (Z.div_mod (c + d) 10 ltac:(lia)).
    repeat split; [lia | constructor; [lia | done] | done |].
    rewrite Nat2Z.inj_succ, Z.pow_succ_r by lia. lia.
Qed.

Lemma normalise_loop_spec ds : ∀ pre c, 0 ≤ c → Forall (λ d, 0 ≤ d) ds →
  for_loop (length ds) (length pre) Bigint.normalise_body (pre ++ ds, c)
  = (pre ++ (carry_norm c ds).1, (carry_norm c ds).2).
Proof.
  induction ds as [|d ds IH]; intros pre c Hc Hds.
  - simpl. by rewrite app_nil_r.
  - inversion_clear Hds as [|? ? Hd Hds'].
    simpl length. simpl for_loop.
    rewrite lookup_total_app_r by lia. rewrite Nat.sub_diag. simpl lookup_total.
    rewrite Z.rem_mod_nonneg, Z.quot_div_nonneg by lia.
    pose proof (Z.mod_pos_bound (c + d) 10 ltac:(lia)).
    rewrite uchar_small by lia.
    rewrite insert_app_r_alt by lia. rewrite Nat.sub_diag. simpl.
    assert (0 ≤ (c + d) / 10) as Hq by (apply Z.div_pos; lia).
    specialize (IH (pre ++ [(c + d) mod 10]) _ Hq Hds').
    rewrite length_app in IH. simpl in IH. rewrite Nat.add_1_r in IH.
    rewrite <- app_assoc in IH. simpl in IH. rewrite IH.
    destruct (carry_norm ((c + d) / 10) ds) as [r c'].
    simpl. by rewrite <- app_assoc.
Qed.

Lemma normalise_spec i ds : (i ≤ length ds)%nat → Forall (λ d, 0 ≤ d) ds →
  Bigint.normalise i ds =
    if decide ((carry_norm 0 (drop i ds)).2 = 0)
    then Some (take i ds ++ (carry_norm 0 (drop i ds)).1) else None.
Proof.
  intros Hi Hds. unfold Bigint.normalise.
  rewrite <- (take_drop i ds) at 2.
  replace (length ds - i)%nat with (length (drop i ds)) by (rewrite length_drop; lia).
  replace i with (length (take i ds)) at 2 by (rewrite length_take; lia).
  rewrite normalise_loop_spec; [done | lia | by apply Forall_drop].
Qed.

(** ** [contract] and [expand] *)

Lemma contract_size_app n : ∀ ds e, (n ≤ length ds)%nat →
  Bigint.contract_size n (ds ++ e) = Bigint.contract_size n ds.
Proof.
  induction n as [|n IH]; intros ds e Hn; simpl; [done|].
  rewrite lookup_total_app_l by lia. rewrite IH by lia. done.
Qed.

Lemma contract_size_le n ds : (Bigint.contract_size n ds ≤ n)%nat.
Proof.
  induction n as [|n IH]; simpl; [done|]. case_decide; lia.
Qed.

Lemma contract_nil : Bigint.contract [] = [].
Proof. done. Qed.

Lemma contract_snoc ds x :
  Bigint.contract (ds ++ [x]) =
    if decide (x = 0) then Bigint.contract ds else ds ++ [x].
Proof.
  unfold Bigint.contract. rewrite length_app. simpl length.
  rewrite Nat.add_1_r. simpl Bigint.contract_size.
  rewrite lookup_total_app_r by lia. rewrite Nat.sub_diag. simpl lookup_total.
  case_decide as Hx.
  - rewrite contract_size_app by lia.
    rewrite resize_app_le; [done|]. apply contract_size_le.
  - rewrite resize_all_alt; [done|]. rewrite length_app. simpl. lia.
Qed.

Lemma value_contract ds : value (Bigint.contract ds) = value ds.
Proof.
  induction ds as [|x ds IH] using rev_ind; [done|].
  rewrite contract_snoc. case_decide as Hx; [|done].
  rewrite IH, value_app. subst x. simpl. lia.
Qed.

Lemma contract_digits_ok ds : digits_ok ds → digits_ok (Bigint.contract ds).
Proof.
  induction ds as [|x ds IH] using rev_ind; [done|].
  intros Hok. rewrite contract_snoc. case_decide; [|done].
  apply IH. by apply Forall_app in Hok as [? _].
Qed.

Lemma contract_last ds : last (Bigint.contract ds) ≠ Some 0.
Proof.
  induction ds as [|x ds IH] using rev_ind; [done|].
  rewrite contract_snoc. case_decide; [done|].
  rewrite last_snoc. congruence.
Qed.

Lemma contract_canonical ds : digits_ok ds → canonical (Bigint.contract ds).
Proof. split; [by apply contract_digits_ok | apply contract_last]. Qed.

Lemma contract_replicate_0 n : Bigint.contract (replicate n 0) = [].
Proof.
  induction n as [|n IH]; [done|].
  rewrite replicate_S_end, contract_snoc. by rewrite decide_True.
Qed.

Lemma expand_spec n ds :
  Bigint.expand n ds = ds ++ replicate (n - length ds) 0.
Proof.
  unfold Bigint.expand. case_decide.
  - rewrite resize_ge by lia. done.
  - replace (n - length ds)%nat with 0%nat by lia. simpl. by rewrite app_nil_r.
Qed.

Lemma digits_ok_replicate_0 n : digits_ok (replicate n 0).
Proof. apply Forall_replicate. lia. Qed.

(** ** Canonical vectors are unique *)

Lemma canonical_tail d ds : canonical (d :: ds) → canonical ds.
Proof.
  intros [Hok Hlast]. inversion_clear Hok as [|? ? Hd Hds]. split; [done|].
  destruct ds as [|e ds]; [done|]. by rewrite last_cons_cons in Hlast.
Qed.

Lemma value_0_last ds : digits_ok ds → value ds = 0 → ds ≠ [] → last ds = Some 0.
Proof.
  induction 1 as [|d ds Hd Hds IH]; [done|]. simpl. intros Hv _.
  pose proof (value_bound ds Hds).
  destruct ds as [|e ds].
  - simpl in *. f_equal. lia.
  - rewrite last_cons_cons. apply IH; [lia | done].
Qed.

Lemma canonical_nil_value ds : canonical ds → value ds = 0 → ds = [].
Proof.
  intros [Hok Hlast] Hv. destruct ds as [|d ds]; [done|].
  destruct Hlast. by apply value_0_last.
Qed.

Lemma canonical_unique a : ∀ b, canonical a → canonical b → value a = value b → a = b.
Proof.
  induction a as [|d a IH]; intros b Ha Hb Hv.
  - symmetry. by apply canonical_nil_value.
  - destruct b as [|e b].
    + by apply canonical_nil_value.
    + pose proof Ha as [Hoka _]. pose proof Hb as [Hokb _].
      inversion_clear Hoka as [|? ? Hd Hda]. inversion_clear Hokb as [|? ? He Heb].
      simpl in Hv. assert (d = e) by lia. subst e.
      f_equal. apply IH; [by eapply canonical_tail.. | lia].
Qed.

(** ** The digit-wise loops of [operator+=] and [operator*=] *)

Lemma for_loop_ext {St} (f g : nat → St → St) count : ∀ i s,
  (∀ j s, f j s = g j s) → for_loop count i f s = for_loop count i g s.
Proof.
  induction count as [|count IH]; intros i s Hfg; simpl; [done|].
  rewrite Hfg. by apply IH.
Qed.

Lemma zip_add_nil_r k ds : zip_add k ds [] = ds.
Proof. by destruct ds. Qed.

Lemma zip_loop_spec rhs k off n : ∀ j pre ds,
  length pre = (off + j)%nat → (j + n ≤ length rhs)%nat → (n ≤ length ds)%nat →
  for_loop n j
    (λ j digits,
       <[(off + j)%nat := uchar (digits !!! (off + j)%nat + rhs !!! j * k)]> digits)
    (pre ++ ds)
  = pre ++ zip_add k ds (take n (drop j rhs)).
Proof.
  induction n as [|n IH]; intros j pre ds Hpre Hj Hn.
  - simpl. by rewrite zip_add_nil_r.
  - destruct ds as [|d ds]; [simpl in Hn; lia|].
    destruct (lookup_lt_is_Some_2 rhs j ltac:(lia)) as [r Hr].
    rewrite (drop_S _ _ _ Hr). simpl take. simpl zip_add. simpl for_loop.
    rewrite <- Hpre. rewrite lookup_total_app_r by lia. rewrite Nat.sub_diag.
    simpl lookup_total. rewrite (list_lookup_total_correct _ _ _ Hr).
    rewrite insert_app_r_alt by lia. rewrite Nat.sub_diag. simpl.
    rewrite (cons_middle _ pre ds), app_assoc.
    rewrite IH.
    + by rewrite <- app_assoc.
    + rewrite length_app. simpl. lia.
    + lia.
    + simpl in Hn. lia.
Qed.

Lemma zip_add_length k ds : ∀ rhs, length (zip_add k ds rhs) = length ds.
Proof.
  induction ds as [|d ds IH]; intros [|r rhs]; simpl; [done..|]. by rewrite IH.
Qed.

Lemma zip_add_bytes k ds : ∀ rhs, bytes ds → bytes (zip_add k ds rhs).
Proof.
  induction ds as [|d ds IH]; intros [|r rhs] Hds; simpl; [done..|].
  inversion_clear Hds. constructor; [apply uchar_range | by apply IH].
Qed.

Lemma zip_add_value k ds : ∀ rhs,
  0 ≤ k ≤ 9 → digits_ok ds → digits_ok rhs → (length rhs ≤ length ds)%nat →
  value (zip_add k ds rhs) = value ds + k * value rhs.
Proof.
  induction ds as [|d ds IH]; intros [|r rhs] Hk Hds Hrhs Hlen; simpl in *;
    [lia | lia | lia |].
  inversion_clear Hds. inversion_clear Hrhs.
  rewrite IH by (done || lia). rewrite uchar_small by nia. lia.
Qed.

(** ** [operator+=] *)

Lemma add_assign_unfold self rhs :
  Bigint.add_assign self rhs =
    digits ← Bigint.normalise 0
      (zip_add 1 (self ++ replicate (length rhs + 1 - length self) 0) rhs);
    Some (Bigint.contract digits).
Proof.
  unfold Bigint.add_assign. rewrite expand_spec.
  set (ds := self ++ _).
  rewrite (for_loop_ext _
    (λ j digits, <[(0 + j)%nat := uchar (digits !!! (0 + j)%nat + rhs !!! j * 1)]> digits)).
  2:{ intros j s. simpl. by rewrite Z.mul_1_r. }
  assert (length rhs ≤ length ds)%nat as Hlen
    by (unfold ds; rewrite length_app, length_replicate; lia).
  pose proof (zip_loop_spec rhs 1 0 (length rhs) 0 [] ds eq_refl ltac:(lia) Hlen)
    as Hloop.
  change ([] ++ ds) with ds in Hloop. rewrite Hloop.
  simpl. by rewrite firstn_all.
Qed.

(** The sum is exact whenever the final-carry check passes, and the check
    passes exactly when the sum fits the slots [expand] has provided. *)
Lemma add_assign_spec self rhs :
  digits_ok self → digits_ok rhs →
  (∀ r, Bigint.add_assign self rhs = Some r →
        canonical r ∧ value r = value self + value rhs) ∧
  (is_Some (Bigint.add_assign self rhs) ↔
   value self + value rhs
     < 10 ^ Z.of_nat (length self `max` (length rhs + 1))).
Proof.
  intros Hself Hrhs. rewrite add_assign_unfold.
  set (ds := self ++ replicate (length rhs + 1 - length self) 0).
  assert (digits_ok ds) as Hds
    by (apply Forall_app; split; [done | apply digits_ok_replicate_0]).
  assert (length ds = length self `max` (length rhs + 1))%nat as Hlen
    by (unfold ds; rewrite length_app, length_replicate; lia).
  assert (value ds = value self) as Hvds
    by (unfold ds; rewrite value_app, value_replicate_0; lia).
  assert (value (zip_add 1 ds rhs) = value self + value rhs) as Hv
    by (rewrite zip_add_value by (done || lia); lia).
  pose proof (zip_add_bytes 1 ds rhs (digits_ok_bytes _ Hds)) as Hb.
  apply bytes_nonneg in Hb.
  rewrite normalise_spec by (done || lia). rewrite drop_0, take_0.
  destruct (carry_norm_spec _ 0 ltac:(lia) Hb) as (Hl & Hok & Hc & Hval).
  rewrite zip_add_length, Hlen, Hv in Hval.
  pose proof (value_bound _ Hok) as Hbound. rewrite Hl, zip_add_length, Hlen in Hbound.
  set (P := 10 ^ Z.of_nat (length self `max` (length rhs + 1))) in *.
  case_decide as Hcarry; simpl.
  - rewrite Hcarry in Hval. split.
    + intros r [= <-]. split; [by apply contract_canonical|].
      rewrite value_contract. lia.
    + split; [intros _; lia | eauto].
  - split; [done|]. split; [by intros [? ?]|]. intros Hlt. exfalso.
    assert (0 < P) by (apply Z.pow_pos_nonneg; lia). nia.
Qed.

(** ** [operator*=] *)

Lemma mul_body_unfold rhs low d high :
  (length rhs ≤ S (length high))%nat →
  Bigint.mul_body rhs (length low) (low ++ d :: high) =
    Bigint.normalise (length low) (low ++ zip_add d (0 :: high) rhs).
Proof.
  intros Hlen. unfold Bigint.mul_body.
  rewrite lookup_total_app_r by lia. rewrite Nat.sub_diag. simpl lookup_total.
  rewrite insert_app_r_alt by lia. rewrite Nat.sub_diag. simpl insert.
  rewrite (zip_loop_spec rhs d (length low) (length rhs) 0 low (0 :: high));
    [| lia | lia | simpl; lia].
  by rewrite drop_0, firstn_all.
Qed.

Lemma mul_body_spec rhs low d high :
  digits_ok rhs → digits_ok low → digits_ok high → 0 ≤ d ≤ 9 →
  (length rhs ≤ S (length high))%nat →
  d * value rhs + 10 * value high < 10 ^ Z.of_nat (S (length high)) →
  ∃ blk, Bigint.mul_body rhs (length low) (low ++ d :: high) = Some (low ++ blk) ∧
         digits_ok blk ∧ length blk = S (length high) ∧
         value blk = d * value rhs + 10 * value high.
Proof.
  intros Hrhs Hlow Hhigh Hd Hlen Hfit. rewrite mul_body_unfold by done.
  assert (digits_ok (0 :: high)) as H0 by (constructor; [lia | done]).
  pose proof (zip_add_bytes d _ rhs (digits_ok_bytes _ H0)) as Hb.
  apply bytes_nonneg in Hb.
  rewrite normalise_spec.
  2:{ rewrite length_app. lia. }
  2:{ apply Forall_app; split; [by apply digits_ok_nonneg | done]. }
  rewrite drop_app_length, take_app_length.
  destruct (carry_norm_spec _ 0 ltac:(lia) Hb) as (Hl & Hok & Hc & Hval).
  rewrite zip_add_length in Hl, Hval.
  change (length (0 :: high)) with (S (length high)) in Hl, Hval.
  rewrite zip_add_value in Hval by (done || simpl; lia).
  change (value (0 :: high)) with (0 + 10 * value high) in Hval.
  pose proof (value_bound _ Hok) as Hbound. rewrite Hl in Hbound.
  set (P := 10 ^ Z.of_nat (S (length high))) in *.
  assert (0 < P) by (apply Z.pow_pos_nonneg; lia).
  assert ((carry_norm 0 (zip_add d (0 :: high) rhs)).2 = 0) as Hcarry by nia.
  rewrite decide_True by done. eexists. split; [done|].
  rewrite Hcarry in Hval. repeat split; [done | done | lia].
Qed.

Lemma mul_loop_spec rhs low : digits_ok rhs → ∀ high X m,
  digits_ok low → digits_ok high →
  value high = X * value rhs → 0 ≤ X < 10 ^ Z.of_nat m →
  length high = (m + length rhs + 1)%nat →
  ∃ r, Bigint.mul_loop rhs (length low) (low ++ high) = Some r ∧
       digits_ok r ∧
       value r = (value low + 10 ^ Z.of_nat (length low) * X) * value rhs.
Proof.
  intros Hrhs. induction low as [|d low IH] using rev_ind;
    intros high X m Hlow Hhigh Hv HX Hlen.
  - simpl. eexists. split; [done|]. split; [done|]. lia.
  - apply Forall_app in Hlow as [Hlow Hd]. inversion_clear Hd as [|? ? Hd' _].
    rewrite length_app. simpl length. rewrite Nat.add_1_r.
    rewrite <- app_assoc. simpl app. simpl Bigint.mul_loop.
    pose proof (value_bound _ Hrhs) as Hbr.
    assert (10 ^ Z.of_nat (S (length high))
            = 10 * 10 ^ Z.of_nat (S m) * 10 ^ Z.of_nat (length rhs)) as Hpow.
    { rewrite Hlen.
      replace (Z.of_nat (S (m + length rhs + 1)))
        with (1 + Z.of_nat (S m) + Z.of_nat (length rhs)) by lia.
      rewrite !Z.pow_add_r, Z.pow_1_r by lia. done. }
    assert (10 ^ Z.of_nat (S m) = 10 * 10 ^ Z.of_nat m) as Hpm
      by (rewrite Nat2Z.inj_succ, Z.pow_succ_r by lia; done).
    assert (0 < 10 ^ Z.of_nat (length rhs)) by (apply Z.pow_pos_nonneg; lia).
    destruct (mul_body_spec rhs low d high) as (blk & Hbody & Hblk & Hlb & Hvb);
      [done.. | lia | |].
    { rewrite Hpow, Hv. nia. }
    rewrite Hbody. simpl.
    destruct (IH blk (d + 10 * X) (S m)) as (r & Hr & Hokr & Hvr);
      [done | done | rewrite Hvb, Hv; lia | lia | lia |].
    exists r. split; [done|]. split; [done|].
    rewrite Hvr, value_app. simpl value.
    rewrite Nat2Z.inj_succ, Z.pow_succ_r by lia. lia.
Qed.

(** The product is exact and the final-carry check never fails. *)
Lemma mul_assign_spec self rhs :
  digits_ok self → digits_ok rhs →
  ∃ r, Bigint.mul_assign self rhs = Some r ∧ canonical r ∧
       value r = value self * value rhs.
Proof.
  intros Hself Hrhs. unfold Bigint.mul_assign. rewrite expand_spec.
  replace (length self + length rhs + 1 - length self)%nat
    with (length rhs + 1)%nat by lia.
  destruct (mul_loop_spec rhs self Hrhs (replicate (length rhs + 1) 0) 0 0)
    as (r & Hr & Hok & Hv);
    [done | apply digits_ok_replicate_0 | rewrite value_replicate_0; lia
    | simpl; lia | rewrite length_replicate; lia |].
  rewrite Hr. simpl. eexists. split; [done|].
  split; [by apply contract_canonical|]. rewrite value_contract, Hv. lia.
Qed.

(** ** The constructor *)

Lemma canonical_nil : canonical [].
Proof. split; [constructor | done]. Qed.

Lemma decimal_lsb_spec fuel : ∀ v, 0 ≤ v < 10 ^ Z.of_nat fuel →
  canonical (Bigint.decimal_lsb fuel v) ∧ value (Bigint.decimal_lsb fuel v) = v.
Proof.
  induction fuel as [|fuel IH]; intros v Hv.
  - simpl in *. split; [apply canonical_nil | lia].
  - simpl Bigint.decimal_lsb.
    case_decide as Hz; [subst; split; [apply canonical_nil | done]|].
    rewrite Nat2Z.inj_succ, Z.pow_succ_r in Hv by lia.
    pose proof (Z.mod_pos_bound v 10 ltac:(lia)).
    pose proof (Z.div_mod v 10 ltac:(lia)).
    destruct (IH (v / 10)) as ([Hok Hlast] & Hval);
      [split; [apply Z.div_pos; lia | apply Z.div_lt_upper_bound; lia]|].
    split; [split|].
    + constructor; [lia | done].
    + destruct (Bigint.decimal_lsb fuel (v / 10)) as [|e l] eqn:E.
      * simpl in *. intros [= ?]. lia.
      * by rewrite last_cons_cons.
    + simpl. lia.
Qed.

Lemma u64_range z : 0 ≤ u64 z < 2 ^ 64.
Proof. apply Z.mod_pos_bound. lia. Qed.

Lemma make_unfold val e f :
  Bigint.make val e f = replicate e (uchar f) ++ Bigint.decimal_lsb 20 (u64 val).
Proof.
  unfold Bigint.make, Bigint.sprintf_llu. rewrite rev_involutive.
  by rewrite resize_nil.
Qed.

Lemma make_spec val :
  canonical (Bigint.make val 0 0) ∧ value (Bigint.make val 0 0) = u64 val.
Proof.
  rewrite make_unfold. change (replicate 0 (uchar 0)) with (@nil Z).
  rewrite app_nil_l. apply (decimal_lsb_spec 20).
  pose proof (u64_range val).
  assert (2 ^ 64 < 10 ^ Z.of_nat 20) by (by vm_compute). lia.
Qed.

(** ** [power_of] *)

Lemma cache_ok_empty : cache_ok no_caches.
Proof. intros v n a _. unfold powers, no_caches. case_decide; simpl; by rewrite lookup_empty. Qed.

Lemma powers_set_powers v n a st w m :
  v = 2 ∨ v = 5 → w = 2 ∨ w = 5 →
  powers w (set_powers v n a st) !! m =
    if decide (v = w ∧ n = m) then Some a else powers w st !! m.
Proof.
  intros Hv Hw. unfold powers, set_powers.
  destruct Hv as [-> | ->], Hw as [-> | ->]; simpl;
    rewrite ?lookup_insert; repeat case_decide; try done; try lia;
    naive_solver.
Qed.

Lemma cache_ok_set v n a st :
  v = 2 ∨ v = 5 → cache_ok st → canonical a → value a = v ^ n →
  cache_ok (set_powers v n a st).
Proof.
  intros Hv Hst Ha Hval w m b Hw. rewrite powers_set_powers by done.
  case_decide as Heq; [|by apply Hst].
  destruct Heq as [<- <-]. by intros [= <-].
Qed.

Lemma power_of_spec v n st :
  v = 2 ∨ v = 5 → cache_ok st →
  ∃ a st', power_of v n st = Some (a, st') ∧
           canonical a ∧ value a = v ^ u32 n ∧ cache_ok st'.
Proof.
  funelim (power_of v n st); intros Hv Hst.
  - done.
  - destruct (Hst v (u32 n) a) as [Ha Hval]; [done..|]. by exists a, st.
  - pose proof (u32_range n) as Hn.
    assert (u32 n ≠ 0) by (intros E; apply Hne; by rewrite E).
    pose proof (lowbit_bounds (u32 n) ltac:(lia)) as Hlb.
    destruct H0 as (a & st1 & -> & Ha & Hva & Hst1); [done..|]. simpl.
    destruct (H (a, st1) a st1) as (b & st2 & -> & Hb & Hvb & Hst2); [done..|].
    simpl.
    destruct (mul_assign_spec a b) as (r & -> & Hr & Hvr);
      [apply Ha | apply Hb |]. simpl.
    rewrite u32_id in Hva, Hvb by lia.
    assert (value r = v ^ u32 n) as Hval.
    { rewrite Hvr, Hva, Hvb, <- Z.pow_add_r by lia. f_equal. lia. }
    exists r, (set_powers v (u32 n) r st2).
    refine (conj eq_refl (conj Hr (conj Hval _))). by apply cache_ok_set.
  - pose proof (u32_range n) as Hn.
    assert (Z.odd (u32 n) = false) as Hodd.
    { destruct (Z.odd (u32 n)) eqn:E; [|done].
      pose proof (lowbit_odd (u32 n) ltac:(lia) E). lia. }
    pose proof (Z.div_mod (u32 n) 2 ltac:(lia)) as Hdm.
    rewrite Zmod_odd, Hodd in Hdm.
    destruct H as (a & st1 & -> & Ha & Hva & Hst1); [done..|]. simpl.
    destruct (mul_assign_spec a a) as (r & -> & Hr & Hvr);
      [apply Ha | apply Ha |]. simpl.
    rewrite u32_id in Hva by lia.
    assert (value r = v ^ u32 n) as Hval.
    { rewrite Hvr, Hva, <- Z.pow_add_r by lia. f_equal. lia. }
    exists r, (set_powers v (u32 n) r st1).
    refine (conj eq_refl (conj Hr (conj Hval _))). by apply cache_ok_set.
  - pose proof (u32_range n) as Hn.
    set (a := Bigint.make _ 0 0).
    assert (canonical a ∧ value a = v ^ u32 n) as [Ha Hval].
    { split; [apply make_spec|]. unfold a.
      rewrite (proj2 (make_spec _)). case_decide as H1.
      - rewrite H1, Z.pow_1_r. destruct Hv as [-> | ->]; done.
      - replace (u32 n) with 0 by lia. done. }
    exists a, (set_powers v (u32 n) a st).
    refine (conj eq_refl (conj Ha (conj Hval _))). by apply cache_ok_set.
Qed.

(** [power_of] satisfies the recursion of the source. *)
Lemma power_of_body v n st :
  power_of v n st =
    if decide (v = 2 ∨ v = 5) then
      match powers v st !! u32 n with
      | Some a => Some (a, st)
      | None =>
          if decide (u32 n = lowbit (u32 n)) then
            if decide (1 < u32 n) then
              '(a, st) ← power_of v (u32 n / 2) st;
              a ← Bigint.mul_assign a a;
              Some (a, set_powers v (u32 n) a st)
            else
              let a := Bigint.make (if decide (u32 n = 1) then v else 1) 0 0 in
              Some (a, set_powers v (u32 n) a st)
          else
            '(a, st) ← power_of v (u32 n - lowbit (u32 n)) st;
            '(b, st) ← power_of v (lowbit (u32 n)) st;
            a ← Bigint.mul_assign a b;
            Some (a, set_powers v (u32 n) a st)
      end
    else None.
Proof.
  funelim (power_of v n st);
    repeat match goal with
           | H : decide _ = _ |- _ => rewrite H; clear H
           | H : _ !! _ = _ |- _ => rewrite H; clear H
           end; done.
Qed.

(** ** The representation invariant on arbitrary byte vectors

    The lemmas above follow the values through the operations when the
    operands hold decimal digits.  Those below need no such assumption: a
    completed [normalise] leaves decimal digits from its starting index on,
    whatever bytes it started from. *)

Lemma normalise_result i ds r :
  (i ≤ length ds)%nat → bytes ds → Bigint.normalise i ds = Some r →
  length r = length ds ∧ take i r = take i ds ∧ digits_ok (drop i r).
Proof.
  intros Hi Hds. rewrite normalise_spec by (done || by apply bytes_nonneg).
  case_decide; [|done]. intros [= <-].
  destruct (carry_norm_spec (drop i ds) 0 ltac:(lia)) as (Hl & Hok & _).
  { apply Forall_drop. by apply bytes_nonneg. }
  assert (length (take i ds) = i) as Hti by (rewrite length_take; lia).
  split; [|split].
  - rewrite length_app, Hl, Hti, length_drop. lia.
  - rewrite take_app_le by lia. rewrite take_take. f_equal. lia.
  - rewrite drop_app_ge by lia. rewrite Hti, Nat.sub_diag. done.
Qed.

Lemma digit_loop_bytes (f : nat → nat) (g : nat → list Z → Z) count i ds :
  bytes ds →
  bytes (for_loop count i (λ j digits, <[f j := uchar (g j digits)]> digits) ds) ∧
  length (for_loop count i (λ j digits, <[f j := uchar (g j digits)]> digits) ds)
    = length ds.
Proof.
  intros Hds.
  apply (for_loop_ind (λ s, bytes s ∧ length s = length ds)); [|done].
  intros j s [Hs Hl]. split; [|by rewrite length_insert].
  apply Forall_insert; [done | apply uchar_range].
Qed.

Lemma bytes_take_drop i ds :
  bytes (take i ds) → digits_ok (drop i ds) → bytes ds.
Proof.
  intros Ht Hd. rewrite <- (take_drop i ds).
  apply Forall_app. split; [done | by apply digits_ok_bytes].
Qed.

Lemma mul_body_result rhs i ds r :
  (i < length ds)%nat → bytes ds → Bigint.mul_body rhs i ds = Some r →
  length r = length ds ∧ bytes r ∧ digits_ok (drop i r).
Proof.
  intros Hi Hds. unfold Bigint.mul_body.
  assert (bytes (<[i := 0]> ds)) as H0 by (apply Forall_insert; [done | lia]).
  destruct (digit_loop_bytes (λ j, (i + j)%nat)
              (λ j digits, digits !!! (i + j)%nat + rhs !!! j * ds !!! i)
              (length rhs) 0 _ H0) as [Hb Hl].
  rewrite length_insert in Hl. intros Hn.
  apply normalise_result in Hn as (Hlr & Htake & Hok); [| lia | done].
  split; [lia|]. split; [|done].
  apply (bytes_take_drop i); [|done]. rewrite Htake. by apply Forall_take.
Qed.

Lemma mul_loop_result rhs i : ∀ ds r,
  (i ≤ length ds)%nat → bytes ds → digits_ok (drop i ds) →
  Bigint.mul_loop rhs i ds = Some r → digits_ok r.
Proof.
  induction i as [|i IH]; intros ds r Hi Hds Hok; simpl.
  - intros [= <-]. by rewrite drop_0 in Hok.
  - destruct (Bigint.mul_body rhs i ds) as [ds'|] eqn:E; [|done]. simpl.
    apply mul_body_result in E as (Hl & Hb & Hok'); [| lia | done].
    apply IH; [lia | done | done].
Qed.

Lemma add_assign_canonical self rhs r :
  bytes self → Bigint.add_assign self rhs = Some r → canonical r.
Proof.
  intros Hself. unfold Bigint.add_assign.
  assert (bytes (Bigint.expand (length rhs + 1) self)) as He.
  { rewrite expand_spec. apply Forall_app. split; [done|].
    apply Forall_replicate. lia. }
  destruct (digit_loop_bytes (λ j, j) (λ j digits, digits !!! j + rhs !!! j)
              (length rhs) 0 _ He) as [Hb Hl].
  destruct (Bigint.normalise 0 _) as [ds|] eqn:E; [|done]. simpl.
  intros [= <-]. apply normalise_result in E as (_ & _ & Hok); [| lia | done].
  rewrite drop_0 in Hok. by apply contract_canonical.
Qed.

Lemma mul_assign_canonical self rhs r :
  bytes self → Bigint.mul_assign self rhs = Some r → canonical r.
Proof.
  intros Hself. unfold Bigint.mul_assign. rewrite expand_spec.
  destruct (Bigint.mul_loop _ _ _) as [ds|] eqn:E; [|done]. simpl.
  intros [= <-]. apply contract_canonical.
  apply mul_loop_result in E; [done | | |].
  - rewrite length_app. lia.
  - apply Forall_app. split; [done|]. apply Forall_replicate. lia.
  - rewrite drop_app_length. apply digits_ok_replicate_0.
Qed.

Lemma make_canonical val e f :
  e = 0%nat ∨ 0 ≤ uchar f ≤ 9 →
  e = 0%nat ∨ u64 val ≠ 0 ∨ uchar f ≠ 0 →
  canonical (Bigint.make val e f).
Proof.
  intros Hf Hnz. rewrite make_unfold.
  destruct (decimal_lsb_spec 20 (u64 val)) as ([Hok Hlast] & Hval).
  { pose proof (u64_range val).
    assert (2 ^ 64 < 10 ^ Z.of_nat 20) by (by vm_compute). lia. }
  destruct (decide (e = 0%nat)) as [-> | He]; [by split|].
  destruct Hf as [? | Hf]; [done|]. destruct Hnz as [? | Hnz]; [done|].
  split.
  - apply Forall_app. split; [by apply Forall_replicate | done].
  - destruct (Bigint.decimal_lsb 20 (u64 val)) as [|d l] eqn:E.
    + rewrite app_nil_r. destruct e as [|e]; [done|].
      rewrite replicate_S_end, last_snoc. simpl in Hval.
      intros [= H0]. destruct Hnz; [lia | done].
    + rewrite last_app. destruct (last (d :: l)) eqn:El; [done|].
      by apply last_None in El.
Qed.

Lemma digit_out_of_range ds i :
  i < 0 ∨ Bigint.ndigits ds ≤ i → Bigint.digit ds i = 0.
Proof.
  unfold Bigint.digit, Bigint.ndigits. intros Hi. case_decide; [lia | done].
Qed.

(** ** Bit fields of the decoder *)

Lemma shiftl_1_u64 k : 0 ≤ k < 64 → u64 (Z.shiftl 1 k) = 2 ^ k.
Proof.
  intros Hk. unfold u64. rewrite Z.shiftl_1_l. apply Z.mod_small.
  split; [apply Z.pow_nonneg; lia | apply Z.pow_lt_mono_r; lia].
Qed.

Lemma mask_u64 k : 0 ≤ k < 64 → u64 (u64 (Z.shiftl 1 k) - 1) = Z.ones k.
Proof.
  intros Hk. rewrite shiftl_1_u64 by done. rewrite Z.ones_equiv.
  unfold u64. apply Z.mod_small.
  assert (0 < 2 ^ k) by (apply Z.pow_pos_nonneg; lia).
  assert (2 ^ k < 2 ^ 64) by (apply Z.pow_lt_mono_r; lia). lia.
Qed.

Lemma land_pow2 v k : 0 ≤ k →
  Z.land v (2 ^ k) = if Z.testbit v k then 2 ^ k else 0.
Proof.
  intros Hk. apply Z.bits_inj'. intros i Hi.
  rewrite Z.land_spec, Z.pow2_bits_eqb by done.
  destruct (Z.eqb_spec k i) as [<- | Hne].
  - destruct (Z.testbit v k); [|by rewrite Z.bits_0].
    by rewrite Z.pow2_bits_true.
  - rewrite andb_false_r.
    destruct (Z.testbit v k); [|by rewrite Z.bits_0].
    by rewrite Z.pow2_bits_false.
Qed.

Lemma mul_assign_nil_l rhs : Bigint.mul_assign [] rhs = Some [].
Proof.
  unfold Bigint.mul_assign. rewrite expand_spec. simpl.
  by rewrite contract_replicate_0.
Qed.

(** ** Digits and values *)

Lemma pow10_pos k : 0 ≤ k → 0 < 10 ^ k.
Proof. intros. apply Z.pow_pos_nonneg; lia. Qed.

Lemma digit_value ds i :
  digits_ok ds → 0 ≤ i → Bigint.digit ds i = (value ds / 10 ^ i) mod 10.
Proof.
  intros Hok Hi. unfold Bigint.digit. pose proof (pow10_pos i Hi) as Hpi.
  case_decide as Hr.
  - destruct (lookup_lt_is_Some_2 ds (Z.to_nat i) ltac:(lia)) as [d Hd].
    rewrite (list_lookup_total_correct _ _ _ Hd).
    rewrite <- (take_drop_middle _ _ _ Hd) in Hok |- *.
    apply Forall_app in Hok as [Hlo Hhi]. inversion_clear Hhi as [|? ? Hd9 Hrest].
    pose proof (value_bound _ Hlo) as Hb. pose proof (value_bound _ Hrest).
    rewrite value_app. rewrite length_take in Hb |- *.
    apply lookup_lt_Some in Hd.
    replace (Z.of_nat (Z.to_nat i `min` length ds)) with i in * by lia.
    simpl value.
    replace (value (take (Z.to_nat i) ds) + 10 ^ i * (d + 10 * value (drop (S (Z.to_nat i)) ds)))
      with ((d + 10 * value (drop (S (Z.to_nat i)) ds)) * 10 ^ i
            + value (take (Z.to_nat i) ds)) by lia.
    rewrite Z.div_add_l by lia. rewrite (Z.div_small (value _)) by lia.
    replace (d + 10 * value (drop (S (Z.to_nat i)) ds) + 0)
      with (d + value (drop (S (Z.to_nat i)) ds) * 10) by lia.
    rewrite Z_mod_plus_full. symmetry. apply Z.mod_small. lia.
  - pose proof (value_bound _ Hok) as Hb.
    assert (10 ^ Z.of_nat (length ds) ≤ 10 ^ i) by (apply Z.pow_le_mono_r; lia).
    rewrite Z.div_small by lia. done.
Qed.

Lemma value_lower_bound ds :
  canonical ds → ds ≠ [] → 10 ^ (Z.of_nat (length ds) - 1) ≤ value ds.
Proof.
  induction ds as [|d ds IH]; [done|]. intros Hc _.
  pose proof Hc as [Hok Hlast]. inversion_clear Hok as [|? ? Hd Hds].
  destruct ds as [|e ds].
  - simpl in *. assert (d ≠ 0) by congruence. lia.
  - specialize (IH (canonical_tail _ _ Hc) ltac:(done)).
    change (length (d :: e :: ds)) with (S (length (e :: ds))).
    replace (Z.of_nat (S (length (e :: ds))) - 1)
      with (Z.succ (Z.of_nat (length (e :: ds)) - 1)) by lia.
    rewrite Z.pow_succ_r by (simpl; lia).
    change (value (d :: e :: ds)) with (d + 10 * value (e :: ds)). lia.
Qed.

(** The number of stored digits of a canonical vector is the number of
    decimal digits of its value. *)
Lemma canonical_ndigits ds n :
  canonical ds → 1 ≤ n → 10 ^ (n - 1) ≤ value ds < 10 ^ n →
  Bigint.ndigits ds = n.
Proof.
  intros Hc Hn Hv. unfold Bigint.ndigits.
  pose proof (value_bound _ (proj1 Hc)) as Hub.
  pose proof (pow10_pos (n - 1) ltac:(lia)).
  assert (ds ≠ []) as Hne by (intros ->; simpl in *; lia).
  pose proof (value_lower_bound _ Hc Hne) as Hlb.
  destruct (Z.lt_trichotomy (Z.of_nat (length ds)) n) as [Hlt | [? | Hgt]]; [|done|].
  - assert (10 ^ Z.of_nat (length ds) ≤ 10 ^ (n - 1)) by (apply Z.pow_le_mono_r; lia).
    lia.
  - assert (10 ^ n ≤ 10 ^ (Z.of_nat (length ds) - 1)) by (apply Z.pow_le_mono_r; lia).
    lia.
Qed.

Lemma value_replicate_9 k : value (replicate k 9) = 10 ^ Z.of_nat k - 1.
Proof.
  induction k as [|k IH]; [done|].
  rewrite Nat2Z.inj_succ, Z.pow_succ_r by lia. simpl. lia.
Qed.

(** The two rounding increments of [fp_btod]. *)
Lemma make_5 k :
  digits_ok (Bigint.make 5 k 0) ∧ length (Bigint.make 5 k 0) = S k ∧
  value (Bigint.make 5 k 0) = 5 * 10 ^ Z.of_nat k.
Proof.
  rewrite make_unfold. change (Bigint.decimal_lsb 20 (u64 5)) with [5].
  change (uchar 0) with 0. split; [|split].
  - apply Forall_app. split; [apply digits_ok_replicate_0 | solve_digits_ok].
  - rewrite length_app, length_replicate. simpl. lia.
  - rewrite value_app, value_replicate_0, length_replicate. simpl. lia.
Qed.

Lemma make_4_9 k :
  digits_ok (Bigint.make 4 k 9) ∧ length (Bigint.make 4 k 9) = S k ∧
  value (Bigint.make 4 k 9) = 5 * 10 ^ Z.of_nat k - 1.
Proof.
  rewrite make_unfold. change (Bigint.decimal_lsb 20 (u64 4)) with [4].
  change (uchar 9) with 9. split; [|split].
  - apply Forall_app. split; [apply Forall_replicate; lia | solve_digits_ok].
  - rewrite length_app, length_replicate. simpl. lia.
  - rewrite value_app, value_replicate_9, length_replicate. simpl. lia.
Qed.

(** ** Rounding *)

Lemma land_1_odd x : Z.land x 1 ≠ 0 ↔ Z.odd x = true.
Proof.
  change 1 with (Z.ones 1) at 1. rewrite Z.land_ones by lia.
  change (2 ^ 1) with 2. rewrite Zmod_odd. destruct (Z.odd x); split; done.
Qed.

Lemma odd_mod_10 q : Z.odd (q mod 10) = Z.odd q.
Proof.
  rewrite (Z.div_mod q 10) at 2 by lia.
  rewrite Z.odd_add, Z.odd_mul. done.
Qed.

Lemma div_lt_iff x K T : 0 < K → (x < K * T ↔ x / K < T).
Proof.
  intros HK. split.
  - intros. apply Z.div_lt_upper_bound; lia.
  - intros Hlt. destruct (Z.lt_ge_cases x (K * T)) as [|Hge]; [done|].
    apply (Z.div_le_lower_bound _ _ _ HK) in Hge. lia.
Qed.

(** The increment chosen by [fp_btod] turns truncation into rounding to
    nearest, ties to even. *)
Lemma round_adjust V P :
  0 < P →
  (V + (if decide (5 ≤ (V / P) mod 10)
        then if Z.odd (V / (10 * P)) then 5 * P else 5 * P - 1
        else 0)) / (10 * P)
  = round_half_even V (10 * P).
Proof.
  intros HP. unfold round_half_even.
  pose proof (Z.rem_mul_r V P 10 ltac:(lia) ltac:(lia)) as Hr.
  replace (P * 10) with (10 * P) in Hr by lia.
  pose proof (Z.mod_pos_bound V P HP) as Hlo.
  pose proof (Z.mod_pos_bound (V / P) 10 ltac:(lia)) as Hdc.
  pose proof (Z.div_mod V (10 * P) ltac:(lia)) as HV.
  set (q := V / (10 * P)) in *. set (r := V mod (10 * P)) in *.
  set (dc := (V / P) mod 10) in *. set (lo := V mod P) in *.
  rewrite <- Z.negb_odd.
  assert (∀ t a, 0 ≤ t < 10 * P → (10 * P * a + t) / (10 * P) = a) as Hdiv.
  { intros t a Ht. rewrite Z.mul_comm, Z.div_add_l by lia.
    rewrite (Z.div_small t) by lia. lia. }
  case_decide as H5.
  - assert (10 * P ≤ 2 * r) by nia.
    rewrite decide_False by lia.
    destruct (Z.odd q) eqn:Hodd; simpl.
    + replace (V + 5 * P) with (10 * P * (q + 1) + (r - 5 * P)) by lia.
      rewrite Hdiv by nia. by case_decide.
    + case_decide as Hgt.
      * replace (V + (5 * P - 1)) with (10 * P * (q + 1) + (r - 5 * P - 1)) by lia.
        apply Hdiv. nia.
      * replace (V + (5 * P - 1)) with (10 * P * q + (r + 5 * P - 1)) by lia.
        apply Hdiv. nia.
  - assert (2 * r < 10 * P) by nia.
    rewrite decide_True by lia. rewrite Z.add_0_r. done.
Qed.

Lemma fp_btod_round_spec val n p :
  canonical val → Bigint.ndigits val = n → 1 ≤ p →
  (n ≤ p → fp_btod_round val (n - 1) p = Some val) ∧
  (p < n → 10 ^ p ≤ round_half_even (value val) (10 ^ (n - p)) →
     fp_btod_round val (n - 1) p = None) ∧
  (p < n → round_half_even (value val) (10 ^ (n - p)) < 10 ^ p →
     ∃ val', fp_btod_round val (n - 1) p = Some val' ∧ canonical val' ∧
             value val' / 10 ^ (n - p) = round_half_even (value val) (10 ^ (n - p)) ∧
             value val ≤ value val' < 10 ^ n).
Proof.
  intros Hc Hn Hp. unfold fp_btod_round.
  destruct (decide (n ≤ p)) as [Hle | Hgt].
  { rewrite decide_False by lia. repeat split; intros; (done || lia). }
  split; [intros; lia|].
  assert (p < n) as Hpn by lia. clear Hgt.
  set (c := n - 1 - p). assert (0 ≤ c) as Hc0 by lia.
  rewrite decide_True by done.
  pose proof Hc as [Hok _].
  pose proof (value_bound _ Hok) as HV. unfold Bigint.ndigits in Hn. rewrite Hn in HV.
  set (V := value val) in *.
  pose proof (pow10_pos c Hc0) as HP.
  assert (10 ^ (n - p) = 10 * 10 ^ c) as HK.
  { replace (n - p) with (Z.succ c) by lia. by rewrite Z.pow_succ_r. }
  assert (10 ^ n = 10 * 10 ^ c * 10 ^ p) as HT.
  { rewrite <- HK, <- Z.pow_add_r by lia. f_equal. lia. }
  rewrite HK.
  rewrite (digit_value val c), (digit_value val (c + 1)) by (done || lia).
  fold V. replace (10 ^ (c + 1)) with (10 * 10 ^ c)
    by (rewrite Z.pow_add_r, Z.pow_1_r by lia; lia).
  pose proof (round_adjust V (10 ^ c) HP) as Hadj.
  set (R := round_half_even V (10 * 10 ^ c)) in *.
  assert (∀ rhs, digits_ok rhs → length rhs = S (Z.to_nat c) →
            value rhs = (if Z.odd (V / (10 * 10 ^ c)) then 5 * 10 ^ c else 5 * 10 ^ c - 1) →
            5 ≤ (V / 10 ^ c) mod 10 →
            (10 ^ p ≤ R → Bigint.add_assign val rhs = None) ∧
            (R < 10 ^ p →
               ∃ val', Bigint.add_assign val rhs = Some val' ∧ canonical val' ∧
                       value val' / (10 * 10 ^ c) = R ∧ V ≤ value val' < 10 ^ n)) as Hadd.
  { intros rhs Hrhs Hlen Hvr H5. rewrite decide_True in Hadj by done.
    rewrite <- Hvr in Hadj. fold V in Hadj.
    destruct (add_assign_spec val rhs Hok Hrhs) as [Hsome Hiff].
    replace (Z.of_nat (length val `max` (length rhs + 1))) with n in Hiff by lia.
    fold V in Hiff, Hsome. rewrite HT, div_lt_iff, Hadj in Hiff by lia.
    split.
    - intros HR. destruct (Bigint.add_assign val rhs) eqn:E; [|done].
      assert (R < 10 ^ p) by (apply Hiff; eauto). lia.
    - intros HR. apply Hiff in HR as [val' Hval'].
      destruct (Hsome val' Hval') as [Hcan Hval]. exists val'.
      rewrite Hval. split; [done|]. split; [done|]. split; [done|].
      split; [destruct (Z.odd _); lia|].
      rewrite HT. apply div_lt_iff; [lia|]. rewrite Hadj.
      apply Hiff. rewrite Hval'. eauto. }
  case_decide as H5.
  - destruct (Z.odd (V / (10 * 10 ^ c))) eqn:Hodd.
    + rewrite decide_True by (apply land_1_odd; by rewrite odd_mod_10).
      destruct (make_5 (Z.to_nat c)) as (? & ? & Hv5).
      rewrite Z2Nat.id in Hv5 by done.
      destruct (Hadd (Bigint.make 5 (Z.to_nat c) 0)) as [HA HB]; [done..|].
      split; intros _; [exact HA | exact HB].
    + rewrite decide_False
        by (rewrite land_1_odd, odd_mod_10, Hodd; done).
      destruct (make_4_9 (Z.to_nat c)) as (? & ? & Hv4).
      rewrite Z2Nat.id in Hv4 by done.
      destruct (Hadd (Bigint.make 4 (Z.to_nat c) 9)) as [HA HB]; [done..|].
      split; intros _; [exact HA | exact HB].
  - rewrite Z.add_0_r in Hadj.
    assert (R < 10 ^ p).
    { rewrite <- Hadj. apply div_lt_iff; [lia|]. rewrite <- HT. lia. }
    split; [intros; lia|]. intros _ _. exists val.
    split; [done|]. split; [done|]. split; [done | lia].
Qed.

(** ** Scaling and formatting *)

Lemma fp_btod_scale_spec mantissa power2 st :
  cache_ok st → 0 ≤ mantissa < 2 ^ 64 → - 2 ^ 32 < power2 < 2 ^ 32 →
  ∃ val st',
    fp_btod_scale mantissa power2 st
      = Some (val, if decide (power2 < 0) then power2 else 0, st') ∧
    canonical val ∧ value val = scaled mantissa power2 ∧ cache_ok st'.
Proof.
  intros Hst Hm He. unfold fp_btod_scale, scaled.
  destruct (make_spec mantissa) as [Hmk Hvm].
  unfold u64 in Hvm. rewrite (Z.mod_small mantissa) in Hvm by done.
  destruct (decide (0 < power2)) as [Hpos|Hnpos].
  - destruct (power_of_spec 2 power2 st) as (p & st' & -> & Hp & Hvp & Hst');
      [by left | done |].
    rewrite u32_id in Hvp by lia. cbn [mbind option_bind].
    destruct (mul_assign_spec (Bigint.make mantissa 0 0) p)
      as (val & -> & Hval & Hvv); [apply Hmk | apply Hp |].
    cbn [mbind option_bind]. exists val, st'.
    rewrite decide_False by lia. rewrite Hvv, Hvm, Hvp. done.
  - destruct (decide (power2 < 0)) as [Hneg|Hzero].
    + destruct (power_of_spec 5 (- power2) st) as (p & st' & -> & Hp & Hvp & Hst');
        [by right | done |].
      rewrite u32_id in Hvp by lia. cbn [mbind option_bind].
      destruct (mul_assign_spec (Bigint.make mantissa 0 0) p)
        as (val & -> & Hval & Hvv); [apply Hmk | apply Hp |].
      cbn [mbind option_bind]. exists val, st'.
      rewrite Hvv, Hvm, Hvp. done.
    + exists (Bigint.make mantissa 0 0), st.
      replace power2 with 0 by lia. rewrite Hvm. simpl. rewrite Z.mul_1_r. done.
Qed.

Lemma append_cons a s t : (String a s +:+ t = String a (s +:+ t))%string.
Proof. done. Qed.

Lemma append_nil_l t : ("" +:+ t = t)%string.
Proof. done. Qed.

Lemma append_nil_r s : (s +:+ "" = s)%string.
Proof. induction s as [|a s IH]; [done|]. by rewrite append_cons, IH. Qed.

Lemma append_push_back s c t :
  (push_back s c +:+ t = s +:+ String c t)%string.
Proof.
  unfold push_back. induction s as [|a s IH]; [done|].
  by rewrite !append_cons, IH.
Qed.

Lemma format_loop_spec val count : ∀ i ret digitpos,
  for_loop count i
    (λ _ '(ret, digitpos),
       (push_back ret (digit_char (Bigint.digit val digitpos)), digitpos - 1))
    (ret, digitpos)
  = ((ret +:+ string_of_list_ascii
        ((λ j : nat, digit_char (Bigint.digit val (digitpos - Z.of_nat j)))
           <$> seq 0 count))%string,
     digitpos - Z.of_nat count).
Proof.
  induction count as [|count IH]; intros i ret digitpos.
  - simpl. rewrite append_nil_r. f_equal. lia.
  - simpl for_loop. rewrite IH. f_equal; [|lia].
    rewrite append_push_back. simpl seq. rewrite <- fmap_S_seq.
    simpl. rewrite Z.sub_0_r. do 3 f_equal.
    rewrite <- list_fmap_compose. apply list_fmap_ext. intros _ j _. simpl.
    do 2 f_equal. lia.
Qed.

Lemma fp_btod_format_render val digitpos power10 precision :
  1 ≤ precision →
  fp_btod_format val digitpos power10 precision =
    render ((λ i : nat, Bigint.digit val (digitpos - Z.of_nat i))
              <$> seq 0 (Z.to_nat precision))
           (if decide (Bigint.ndigits val = 0) then 0 else power10).
Proof.
  intros Hp. unfold fp_btod_format. rewrite format_loop_spec.
  replace (Z.to_nat precision) with (S (Z.to_nat (precision - 1))) by lia.
  simpl seq. rewrite <- fmap_S_seq. simpl fmap. unfold render.
  rewrite !append_push_back, append_nil_l, !append_cons, Z.sub_0_r.
  do 4 f_equal. rewrite <- !list_fmap_compose. apply list_fmap_ext.
  intros _ j _. simpl. do 2 f_equal. lia.
Qed.

(** ** [fp_btod] up to the carry into a new digit *)

Lemma digits_rounded val n p R (i : nat) :
  digits_ok val → 1 ≤ p → p < n → value val / 10 ^ (n - p) = R →
  (i < Z.to_nat p)%nat →
  Bigint.digit val (n - 1 - Z.of_nat i) = (R / 10 ^ (p - 1 - Z.of_nat i)) mod 10.
Proof.
  intros Hok Hp Hpn <- Hi. rewrite digit_value by (done || lia).
  rewrite Z.div_div by (apply pow10_pos || (apply Z.pow_nonzero; lia); lia).
  rewrite <- Z.pow_add_r by lia. do 3 f_equal. lia.
Qed.

Lemma digits_exact val n p (i : nat) :
  digits_ok val → 1 ≤ n → n ≤ p → (i < Z.to_nat p)%nat →
  Bigint.digit val (n - 1 - Z.of_nat i)
    = (value val * 10 ^ (p - n) / 10 ^ (p - 1 - Z.of_nat i)) mod 10.
Proof.
  intros Hok Hn Hnp Hi.
  destruct (decide (Z.of_nat i ≤ n - 1)) as [Hlo | Hhi].
  - rewrite digit_value by (done || lia).
    replace (10 ^ (p - 1 - Z.of_nat i))
      with (10 ^ (n - 1 - Z.of_nat i) * 10 ^ (p - n))
      by (rewrite <- Z.pow_add_r by lia; f_equal; lia).
    rewrite Z.div_mul_cancel_r; [done | |]; apply Z.pow_nonzero; lia.
  - rewrite digit_out_of_range by lia.
    replace (10 ^ (p - n))
      with (10 * 10 ^ (Z.of_nat i - n) * 10 ^ (p - 1 - Z.of_nat i)).
    2:{ rewrite <- Z.pow_succ_r, <- Z.pow_add_r by lia. f_equal. lia. }
    rewrite !Z.mul_assoc, Z.div_mul by (apply Z.pow_nonzero; lia).
    replace (value val * 10 * 10 ^ (Z.of_nat i - n))
      with (value val * 10 ^ (Z.of_nat i - n) * 10) by lia.
    by rewrite Z.mod_mul.
Qed.

(** What [fp_btod] does on a nonzero input: with [n] the number of decimal
    digits of the scaled value and [R] its [precision]-digit significand
    rounded to nearest, ties to even, it returns the digits of [R] and the
    exponent of the unrounded value, unless [R] has reached [10^precision],
    in which case the final-carry check fails. *)
Lemma fp_btod_spec mantissa power2 precision n st :
  cache_ok st → 0 < mantissa < 2 ^ 64 → - 2 ^ 32 < power2 < 2 ^ 32 →
  1 ≤ precision →
  10 ^ (n - 1) ≤ scaled mantissa power2 < 10 ^ n →
  let R :=
    if decide (precision < n)
    then round_half_even (scaled mantissa power2) (10 ^ (n - precision))
    else scaled mantissa power2 * 10 ^ (precision - n) in
  if decide (R < 10 ^ precision) then
    ∃ st', fp_btod mantissa power2 precision st
           = Some (render (sig_digits precision R)
                     (n - 1 + if decide (power2 < 0) then power2 else 0), st')
           ∧ cache_ok st'
  else fp_btod mantissa power2 precision st = None.
Proof.
  intros Hst Hm He Hp HV R.
  assert (0 < scaled mantissa power2) as Hpos.
  { unfold scaled. apply Z.mul_pos_pos; [lia|].
    case_decide; apply Z.pow_pos_nonneg; lia. }
  assert (1 ≤ n) as Hn.
  { destruct (decide (1 ≤ n)) as [|Hneg]; [done|]. exfalso.
    destruct (decide (n = 0)) as [-> | ?]; [simpl in HV; lia|].
    rewrite (Z.pow_neg_r 10 n) in HV by lia. lia. }
  destruct (fp_btod_scale_spec mantissa power2 st Hst ltac:(lia) He)
    as (val & st' & Hscale & Hcan & Hval & Hst').
  rewrite <- Hval in HV.
  pose proof (canonical_ndigits val n Hcan Hn HV) as Hnd.
  unfold fp_btod. rewrite Hscale. cbn [mbind option_bind]. rewrite Hnd.
  destruct (fp_btod_round_spec val n precision Hcan Hnd Hp)
    as (Hexact & Hcarry & Hround).
  rewrite Hval in Hcarry, Hround. subst R.
  destruct (decide (precision < n)) as [Hlt | Hge].
  - destruct (decide (round_half_even (scaled mantissa power2)
                        (10 ^ (n - precision)) < 10 ^ precision)) as [HR | HR].
    + destruct (Hround Hlt HR) as (val' & -> & Hcan' & HvR & Hlo & Hhi).
      cbn [mbind option_bind]. exists st'. split; [|done].
      rewrite fp_btod_format_render by done.
      assert (Bigint.ndigits val' ≠ 0) as Hnz.
      { unfold Bigint.ndigits. destruct val'; [simpl in Hlo; lia | simpl; lia]. }
      rewrite decide_False by done. rewrite (Z.add_comm _ (n - 1)).
      do 3 f_equal.
      unfold sig_digits. apply list_fmap_ext. intros j i [-> Hi]%lookup_seq.
      apply (digits_rounded val' n precision); [apply Hcan' | simpl; (done || lia)..].
    + rewrite Hcarry by lia. done.
  - assert (scaled mantissa power2 * 10 ^ (precision - n) < 10 ^ precision) as HR.
    { replace precision with (n + (precision - n)) at 2 by lia.
      rewrite Z.pow_add_r by lia.
      apply Z.mul_lt_mono_pos_r; [apply pow10_pos; lia | lia]. }
    rewrite decide_True by done. rewrite Hexact by lia.
    cbn [mbind option_bind]. exists st'. split; [|done].
    rewrite fp_btod_format_render by done.
    rewrite decide_False by lia. rewrite (Z.add_comm _ (n - 1)).
    do 3 f_equal.
    unfold sig_digits. apply list_fmap_ext. intros j i [-> Hi]%lookup_seq.
    rewrite <- Hval. apply digits_exact; [apply Hcan | simpl; lia..].
Qed.

(** ** The grammar of the text *)

Lemma is_digit_digit_char d : 0 ≤ d ≤ 9 → is_digit (digit_char d) = true.
Proof.
  intros Hd.
  assert (d = 0 ∨ d = 1 ∨ d = 2 ∨ d = 3 ∨ d = 4 ∨ d = 5 ∨ d = 6 ∨ d = 7 ∨
          d = 8 ∨ d = 9) as Hcases by lia.
  repeat (destruct Hcases as [-> | Hcases]; [done|]). by subst.
Qed.

Lemma digit_char_nonzero d : 1 ≤ d ≤ 9 → is_char (digit_char d) "0" = false.
Proof.
  intros Hd.
  assert (d = 1 ∨ d = 2 ∨ d = 3 ∨ d = 4 ∨ d = 5 ∨ d = 6 ∨ d = 7 ∨
          d = 8 ∨ d = 9) as Hcases by lia.
  repeat (destruct Hcases as [-> | Hcases]; [done|]). by subst.
Qed.

Lemma forallb_digit_chars ds :
  digits_ok ds → forallb is_digit (digit_char <$> ds) = true.
Proof.
  induction 1 as [|d ds Hd Hds IH]; [done|].
  rewrite fmap_cons. cbn [forallb]. by rewrite is_digit_digit_char, IH.
Qed.

Lemma list_ascii_of_append s t :
  list_ascii_of_string (s +:+ t)
  = list_ascii_of_string s ++ list_ascii_of_string t.
Proof.
  induction s as [|a s IH]; [done|]. rewrite append_cons. simpl. by rewrite IH.
Qed.

Lemma sprintf_e03d_grammar x :
  Z.abs x < 10 ^ 10 →
  ∃ sg ds, list_ascii_of_string (sprintf_e03d x) = "e"%char :: sg :: ds ∧
           (is_char sg "+" || is_char sg "-") = true ∧ is_expdigits ds = true.
Proof.
  intros Hx. unfold sprintf_e03d.
  destruct (decimal_lsb_spec 10 (Z.abs x)) as ([Hok Hlast] & _); [simpl; lia|].
  set (l := Bigint.decimal_lsb 10 (Z.abs x)) in *.
  eexists _, _. split; [simpl; rewrite list_ascii_of_string_of_list_ascii; done|].
  split; [by case_decide|].
  assert (digits_ok (rev l)) as Hrev by (by apply Forall_rev).
  assert (∀ d ds, rev l = d :: ds → 1 ≤ d ≤ 9) as Hhead.
  { intros d ds E. rewrite <- (rev_involutive l), E in Hlast. simpl in Hlast.
    rewrite last_snoc in Hlast. rewrite E in Hrev.
    inversion_clear Hrev. assert (d ≠ 0) by congruence. lia. }
  unfold is_expdigits. rewrite forallb_digit_chars.
  2:{ apply Forall_app. split; [apply digits_ok_replicate_0 | done]. }
  destruct (rev l) as [|d1 [|d2 [|d3 ds]]] eqn:E; simpl; [done..|].
  by rewrite (digit_char_nonzero d1) by (by eapply Hhead).
Qed.

Lemma sig_digits_ok p R : digits_ok (sig_digits p R).
Proof.
  unfold sig_digits. apply Forall_fmap, Forall_forall. intros i _. simpl.
  pose proof (Z.mod_pos_bound (R / 10 ^ (p - 1 - Z.of_nat i)) 10). lia.
Qed.

Lemma sig_digits_length p R : length (sig_digits p R) = Z.to_nat p.
Proof. unfold sig_digits. by rewrite length_fmap, length_seq. Qed.

(** The text for [precision] decimal digits and an [int] exponent is of the
    finite form of the grammar, after either sign. *)
Lemma render_grammar (sign : ascii) digits power10 :
  is_char sign " " || is_char sign "-" = true →
  digits_ok digits → digits ≠ [] → Z.abs power10 < 10 ^ 10 →
  btod_grammar (length digits) (String sign (render digits power10)) = true.
Proof.
  intros Hsign Hok Hne Hx. destruct digits as [|d digits]; [done|].
  inversion_clear Hok as [|? ? Hd Hds].
  destruct (sprintf_e03d_grammar power10 Hx) as (sg & ds & He & Hsg & Hds').
  unfold btod_grammar, render. simpl list_ascii_of_string. cbv beta iota.
  rewrite Hsign. cbn [andb]. apply orb_true_iff. right.
  rewrite list_ascii_of_append, list_ascii_of_string_of_list_ascii, He.
  unfold is_finite. cbn [length]. rewrite Nat.sub_succ, Nat.sub_0_r.
  assert (length (digit_char <$> digits) = length digits) as Hl
    by apply length_fmap.
  rewrite take_app_length', drop_app_length' by done.
  rewrite is_digit_digit_char by done.
  rewrite bool_decide_eq_true_2 by done.
  rewrite forallb_digit_chars by done.
  by rewrite Hsg, Hds'.
Qed.

Lemma digit_range ds i : digits_ok ds → 0 ≤ Bigint.digit ds i ≤ 9.
Proof.
  intros Hok. unfold Bigint.digit. case_decide as Hi; [|lia].
  destruct (lookup_lt_is_Some_2 ds (Z.to_nat i) ltac:(lia)) as [d Hd].
  rewrite (list_lookup_total_correct _ _ _ Hd).
  by apply (Forall_lookup_1 _ _ _ _ Hok Hd).
Qed.

Lemma fp_btod_round_canonical val digitpos precision val' :
  canonical val → fp_btod_round val digitpos precision = Some val' →
  canonical val'.
Proof.
  intros Hc. unfold fp_btod_round.
  repeat case_decide; try (by intros [= <-]);
    apply add_assign_canonical, digits_ok_bytes, Hc.
Qed.

(** Whatever [fp_btod] returns is of the finite form of the grammar. *)
Lemma fp_btod_grammar mantissa power2 precision st s st' (sign : ascii) :
  cache_ok st → 0 ≤ mantissa < 2 ^ 64 → - 2 ^ 31 ≤ power2 < 2 ^ 31 →
  1 ≤ precision →
  is_char sign " " || is_char sign "-" = true →
  fp_btod mantissa power2 precision st = Some (s, st') →
  btod_grammar (Z.to_nat precision) (String sign s) = true.
Proof.
  intros Hst Hm He Hp Hsign. unfold fp_btod.
  destruct (fp_btod_scale_spec mantissa power2 st Hst Hm ltac:(lia))
    as (val & st1 & -> & Hcan & Hval & _).
  cbn [mbind option_bind].
  destruct (fp_btod_round val _ precision) as [val'|] eqn:Hround; [|done].
  cbn [mbind option_bind]. intros [= <- <-].
  apply fp_btod_round_canonical in Hround as [Hok' _]; [|done].
  rewrite fp_btod_format_render by done.
  set (digits := _ <$> seq 0 (Z.to_nat precision)).
  assert (length digits = Z.to_nat precision) as Hlen
    by (unfold digits; by rewrite length_fmap, length_seq).
  rewrite <- Hlen. apply render_grammar; [done | | |].
  - unfold digits. apply Forall_fmap, Forall_forall. intros i _.
    by apply digit_range.
  - intros E. rewrite E in Hlen. simpl in Hlen. lia.
  - case_decide; [done|].
    assert (Bigint.ndigits val ≤ 20 + Z.abs power2) as Hnd.
    { unfold Bigint.ndigits. destruct (decide (val = [])) as [-> | Hne]; [simpl; lia|].
      pose proof (value_lower_bound val Hcan Hne) as Hlb.
      assert (value val < 10 ^ (20 + Z.abs power2)) as Hub.
      { rewrite Hval. unfold scaled. rewrite Z.pow_add_r by lia.
        assert (2 ^ 64 < 10 ^ 20) by done.
        assert (0 < 10 ^ Z.abs power2) by (apply pow10_pos; lia).
        case_decide.
        - assert (0 < 2 ^ power2 ≤ 10 ^ Z.abs power2).
          { split; [apply Z.pow_pos_nonneg; lia|].
            rewrite Z.abs_eq by lia. apply Z.pow_le_mono_l. lia. }
          nia.
        - assert (0 < 5 ^ (- power2) ≤ 10 ^ Z.abs power2).
          { split; [apply Z.pow_pos_nonneg; lia|].
            replace (Z.abs power2) with (- power2) by lia.
            apply Z.pow_le_mono_l. lia. }
          nia. }
      destruct (Z.le_gt_cases (Z.of_nat (length val)) (20 + Z.abs power2)) as [|Hgt];
        [done|].
      assert (10 ^ (20 + Z.abs power2) ≤ 10 ^ (Z.of_nat (length val) - 1))
        by (apply Z.pow_le_mono_r; lia).
      lia. }
    assert (0 ≤ Bigint.ndigits val) by (unfold Bigint.ndigits; lia).
    assert (2 ^ 31 + 20 < 10 ^ 10) by done.
    case_decide; lia.
Qed.

(** ** The decoder on finite patterns *)

Lemma int32_u64 x : - 2 ^ 31 ≤ x < 2 ^ 31 → int32 (u64 x) = x.
Proof.
  intros Hx. unfold int32, u64. Z.div_mod_to_equations. lia.
Qed.

Lemma int32_small x : 0 ≤ x < 2 ^ 31 → int32 x = x.
Proof. intros Hx. unfold int32. Z.div_mod_to_equations. lia. Qed.

Lemma lor_pow2 v m : 0 ≤ m → 0 ≤ v < 2 ^ m → Z.lor v (2 ^ m) = v + 2 ^ m.
Proof.
  intros Hm Hv. symmetry. apply Z.add_nocarry_lor. rewrite land_pow2 by done.
  replace v with (v mod 2 ^ m) by (by apply Z.mod_small).
  by rewrite Z.mod_pow2_bits_high by lia.
Qed.

(** The decoded float: the sign character, the mantissa with its implicit
    leading bit for a normal number, and the binary exponent of its last
    bit. *)
Lemma ieee_btod_finite val ebits mbits digits st :
  0 ≤ mbits → 2 ≤ ebits ≤ 31 → ebits + mbits < 64 →
  (u64 val / 2 ^ mbits) mod 2 ^ ebits ≠ 2 ^ ebits - 1 →
  ieee_btod val ebits mbits digits st =
    '(s, st) ←
      fp_btod
        (u64 val mod 2 ^ mbits
         + (if decide ((u64 val / 2 ^ mbits) mod 2 ^ ebits ≠ 0)
            then 2 ^ mbits else 0))
        ((if decide ((u64 val / 2 ^ mbits) mod 2 ^ ebits ≠ 0)
          then (u64 val / 2 ^ mbits) mod 2 ^ ebits - 1 else 0)
         - (2 ^ (ebits - 1) - 2 + mbits))
        digits st;
    Some ((if Z.testbit (u64 val) (ebits + mbits) then "-" else " ") +:+ s, st)%string.
Proof.
  intros Hm He Hem Hfin. unfold ieee_btod.
  rewrite (shiftl_1_u64 (ebits + mbits)) by lia.
  rewrite (mask_u64 ebits), (mask_u64 mbits) by lia.
  rewrite (shiftl_1_u64 mbits), (shiftl_1_u64 (ebits - 1)) by lia.
  rewrite !Z.land_ones, Z.shiftr_div_pow2, land_pow2 by lia.
  rewrite Z.ones_equiv.
  set (F := (u64 val / 2 ^ mbits) mod 2 ^ ebits) in *.
  assert (0 ≤ F < 2 ^ ebits) as HF by (apply Z.mod_pos_bound, Z.pow_pos_nonneg; lia).
  assert (2 ^ ebits ≤ 2 ^ 31) by (apply Z.pow_le_mono_r; lia).
  assert (2 ^ 1 ≤ 2 ^ (ebits - 1) ≤ 2 ^ 30)
    by (split; apply Z.pow_le_mono_r; lia).
  assert (0 < 2 ^ (ebits + mbits)) by (apply Z.pow_pos_nonneg; lia).
  pose proof (Z.mod_pos_bound (u64 val) (2 ^ mbits)
                ltac:(apply Z.pow_pos_nonneg; lia)) as HM.
  rewrite (int32_small F), (int32_small (Z.pred (2 ^ ebits))) by lia.
  rewrite (decide_False (P := F = Z.pred (2 ^ ebits))) by lia.
  assert (u64 (2 ^ (ebits - 1) - 2 + mbits) = 2 ^ (ebits - 1) - 2 + mbits) as ->
    by (apply Z.mod_small; lia).
  destruct (Z.testbit (u64 val) (ebits + mbits));
    [rewrite (decide_True (P := 2 ^ (ebits + mbits) ≠ 0)) by lia
    |rewrite (decide_False (P := 0 ≠ 0)) by lia].
  all: destruct (decide (F ≠ 0)) as [Hnz | Hz];
    [rewrite lor_pow2 by lia; rewrite int32_u64 by lia; done
    |rewrite int32_u64 by lia; replace F with 0 by lia; by rewrite Z.add_0_r].
Qed.

Lemma ieee_btod_all_ones val ebits mbits digits st :
  0 ≤ mbits → 0 ≤ ebits → ebits + mbits < 64 →
  (u64 val / 2 ^ mbits) mod 2 ^ ebits = 2 ^ ebits - 1 →
  ieee_btod val ebits mbits digits st =
    Some ((if Z.testbit (u64 val) (ebits + mbits) then "-" else " ") +:+
          (if decide (u64 val mod 2 ^ mbits ≠ 0) then "NaN" else "Inf"), st)%string.
Proof.
  intros Hm He Hem Hexp. unfold ieee_btod.
  rewrite (shiftl_1_u64 (ebits + mbits)) by lia.
  rewrite (mask_u64 ebits), (mask_u64 mbits) by lia.
  rewrite !Z.land_ones, Z.shiftr_div_pow2 by lia.
  rewrite Z.ones_equiv, Hexp, land_pow2 by lia.
  rewrite (decide_True (P := int32 _ = int32 _)) by done.
  assert (0 < 2 ^ (ebits + mbits)) by (apply Z.pow_pos_nonneg; lia).
  destruct (Z.testbit (u64 val) (ebits + mbits)).
  - rewrite decide_True by lia. done.
  - rewrite decide_False by (intros H'; by apply H'). done.
Qed.

(** Whatever [ieee_btod] returns is of the grammar; so it is for the two
    entry points. *)
Lemma ieee_btod_grammar val ebits mbits digits st s st' :
  cache_ok st → 0 ≤ mbits → 2 ≤ ebits ≤ 31 → ebits + mbits < 64 → 1 ≤ digits →
  ieee_btod val ebits mbits digits st = Some (s, st') →
  btod_grammar (Z.to_nat digits) s = true.
Proof.
  intros Hst Hm He Hem Hd.
  assert (0 < 2 ^ mbits ∧ 2 * 2 ^ mbits ≤ 2 ^ 63) as [HPm HPm'].
  { split; [apply Z.pow_pos_nonneg; lia|].
    rewrite <- Z.pow_succ_r by lia. apply Z.pow_le_mono_r; lia. }
  assert (0 < 2 ^ ebits ≤ 2 ^ 31)
    by (split; [apply Z.pow_pos_nonneg | apply Z.pow_le_mono_r]; lia).
  assert (2 ^ 1 ≤ 2 ^ (ebits - 1) ≤ 2 ^ 30)
    by (split; apply Z.pow_le_mono_r; lia).
  destruct (decide ((u64 val / 2 ^ mbits) mod 2 ^ ebits = 2 ^ ebits - 1))
    as [Hspecial | Hfinite].
  - rewrite ieee_btod_all_ones by (done || lia).
    intros [= <- <-].
    destruct (Z.testbit _ _); case_decide; reflexivity.
  - rewrite ieee_btod_finite by (done || lia).
    set (F := (u64 val / 2 ^ mbits) mod 2 ^ ebits) in *.
    pose proof (Z.mod_pos_bound (u64 val / 2 ^ mbits) (2 ^ ebits) ltac:(lia)) as HF.
    pose proof (Z.mod_pos_bound (u64 val) (2 ^ mbits) HPm) as HM.
    fold F in HF.
    match goal with
    | |- context [fp_btod ?m ?e digits st] =>
        destruct (fp_btod m e digits st) as [[s0 st0]|] eqn:Hfp; [|done];
        assert (0 ≤ m < 2 ^ 64 ∧ - 2 ^ 31 ≤ e < 2 ^ 31) as [HmR HeR]
          by (split; case_decide; lia)
    end.
    cbn [mbind option_bind]. intros [= <- <-].
    destruct (Z.testbit _ _); rewrite append_cons, append_nil_l;
      by eapply fp_btod_grammar.
Qed.

Lemma entry_points_grammar st s st' :
  cache_ok st →
  (∀ val, float_btod val st = Some (s, st') → btod_grammar 9 s = true) ∧
  (∀ val, double_btod val st = Some (s, st') → btod_grammar 17 s = true).
Proof.
  intros Hst. split; intros val H.
  - by apply (ieee_btod_grammar (u32 val) 8 23 9 st s st').
  - by apply (ieee_btod_grammar (u64 val) 11 52 17 st s st').
Qed.

(** ** The tests of the source

    The expectations of the [TEST_BTOD] harness of btod.cpp, evaluated on
    the embedding (those that need the powers beyond [5^1000] are left
    out). *)

Example source_tests_float :
  fresh (float_btod 0x7f800001) = Some " NaN"%string ∧
  fresh (float_btod 0x7f800000) = Some " Inf"%string ∧
  fresh (float_btod 0x7f7fffff) = Some " 3.40282347e+38"%string ∧
  fresh (float_btod 0x00800000) = Some " 1.17549435e-38"%string ∧
  fresh (float_btod 0x807fffff) = Some "-1.17549421e-38"%string ∧
  fresh (float_btod 0x00000001) = Some " 1.40129846e-45"%string ∧
  fresh (float_btod 0x00000000) = Some " 0.00000000e+00"%string ∧
  fresh (float_btod 0x3f804000) = Some " 1.00195312e+00"%string ∧
  fresh (float_btod 0x3f80c000) = Some " 1.00585938e+00"%string ∧
  fresh (float_btod 0x3f800000) = Some " 1.00000000e+00"%string ∧
  fresh (float_btod 0x3f800001) = Some " 1.00000012e+00"%string ∧
  fresh (float_btod 0x3f7fffff) = Some " 9.99999940e-01"%string ∧
  fresh (float_btod 0x40490fdb) = Some " 3.14159274e+00"%string.
Proof. vm_compute. repeat split. Qed.

Example source_tests_double :
  fresh (double_btod 0x7ff0000000000001) = Some " NaN"%string ∧
  fresh (double_btod 0x7ff0000000000000) = Some " Inf"%string ∧
  fresh (double_btod 0x3ff0000800000000) = Some " 1.0000076293945312e+00"%string ∧
  fresh (double_btod 0x3ff0001800000000) = Some " 1.0000228881835938e+00"%string ∧
  fresh (double_btod 0x3ff0000000000000) = Some " 1.0000000000000000e+00"%string ∧
  fresh (double_btod 0x3ff0000000000001) = Some " 1.0000000000000002e+00"%string ∧
  fresh (double_btod 0x3fefffffffffffff) = Some " 9.9999999999999989e-01"%string ∧
  fresh (double_btod 0x400921fb54442d18) = Some " 3.1415926535897931e+00"%string.
Proof. vm_compute. repeat split. Qed.

Example source_tests_grammar :
  btod_grammar 9 " 3.40282347e+38" = true ∧
  btod_grammar 9 "-1.17549421e-38" = true ∧
  btod_grammar 9 " NaN" = true ∧
  btod_grammar 17 " 1.7976931348623157e+308" = true ∧
  btod_grammar 9 " 3.4028234e+38" = false ∧
  btod_grammar 9 " 3.40282347e+8" = false ∧
  btod_grammar 9 " 3.40282347e+038" = false.
Proof. vm_compute. repeat split. Qed.

(** ** Properties *)

(** C5: on any cache whose entries are right, [power_of v n] for [v] in
    {2, 5} and an unsigned [n] returns a Bigint whose value is exactly
    [v ^ n] (and leaves such a cache); and for [n >= 1] it is the very
    Bigint obtained from [power_of v (n - 1)] multiplied by [v]. *)
Theorem power_of_exact (v n : Z) (st : caches) :
  v = 2 ∨ v = 5 → 0 ≤ n < 2 ^ 32 → cache_ok st →
  ∃ a st', power_of v n st = Some (a, st') ∧
           value a = v ^ n ∧ canonical a ∧ cache_ok st' ∧
           (1 ≤ n → ∀ st0, cache_ok st0 →
              ∃ b st1, power_of v (n - 1) st0 = Some (b, st1) ∧
                       Bigint.mul_assign b (Bigint.make v 0 0) = Some a).
Proof.
  intros Hv Hn Hst.
  destruct (power_of_spec v n st Hv Hst) as (a & st' & Hp & Ha & Hva & Hst').
  rewrite u32_id in Hva by done.
  exists a, st'. refine (conj Hp (conj Hva (conj Ha (conj Hst' _)))).
  intros Hn1 st0 Hst0.
  destruct (power_of_spec v (n - 1) st0 Hv Hst0) as (b & st1 & Hq & Hb & Hvb & _).
  rewrite u32_id in Hvb by lia.
  exists b, st1. split; [done|].
  destruct (make_spec v) as [Hm Hvm].
  destruct (mul_assign_spec b (Bigint.make v 0 0)) as (r & Hr & Hcr & Hvr);
    [apply Hb | apply Hm |].
  rewrite Hr. f_equal. apply canonical_unique; [done..|].
  rewrite Hvr, Hvb, Hvm, Hva.
  replace (u64 v) with v by (destruct Hv as [-> | ->]; done).
  replace n with (Z.succ (n - 1)) at 2 by lia.
  rewrite Z.pow_succ_r by lia. lia.
Qed.

Lemma power_of_exact_witness :
  ∃ a st', power_of 2 10 no_caches = Some (a, st') ∧
           value a = 2 ^ 10 ∧ canonical a ∧ cache_ok st' ∧
           (1 ≤ 10 → ∀ st0, cache_ok st0 →
              ∃ b st1, power_of 2 (10 - 1) st0 = Some (b, st1) ∧
                       Bigint.mul_assign b (Bigint.make 2 0 0) = Some a).
Proof.
  apply (power_of_exact 2 10 no_caches); [by left | lia | apply cache_ok_empty].
Defined.

(** C10: every recursive call of [power_of] is at a strictly smaller,
    non-negative exponent: [n - lowbit] and [lowbit] when [n] has more than
    one bit set, [n / 2] when [n > 1] is a power of two; hence the call
    relation is well-founded, and [power_of] returns a result for either
    base and every exponent.  (The definition of [power_of] above is by
    well-founded recursion on that very measure; [power_of_body] shows that
    these are its recursive calls.) *)
Theorem power_of_terminates :
  (∀ m n, power_of_call m n → 0 ≤ m < n) ∧
  well_founded power_of_call ∧
  (∀ v n st, v = 2 ∨ v = 5 → cache_ok st → is_Some (power_of v n st)).
Proof.
  assert (∀ m n, power_of_call m n → 0 ≤ m < n) as Hdec.
  { intros m n Hcall. destruct Hcall as [n Hu Hne | n Hu Hne | n Hu Heq Hgt].
    - pose proof (u32_range n) as Hn. rewrite Hu in Hn.
      assert (n ≠ 0) by (intros ->; by apply Hne).
      pose proof (lowbit_bounds n ltac:(lia)). lia.
    - pose proof (u32_range n) as Hn. rewrite Hu in Hn.
      assert (n ≠ 0) by (intros ->; by apply Hne).
      pose proof (lowbit_bounds n ltac:(lia)). lia.
    - Z.div_mod_to_equations. lia. }
  split; [done|]. split.
  - apply (well_founded_lt_compat _ Z.to_nat). intros m n Hcall.
    apply Hdec in Hcall. lia.
  - intros v n st Hv Hst.
    destruct (power_of_spec v n st Hv Hst) as (a & st' & -> & _). eauto.
Qed.

Lemma power_of_terminates_witness :
  (0 ≤ 12 - lowbit 12 < 12 ∧ 0 ≤ lowbit 12 < 12 ∧ 0 ≤ 8 / 2 < 8) ∧
  is_Some (power_of 5 12 no_caches).
Proof.
  destruct power_of_terminates as (Hdec & _ & Hret). split.
  - split; [|split]; apply Hdec; constructor; done.
  - apply Hret; [by right | apply cache_ok_empty].
Defined.

(** C6, at the failing input: [self] = 99 and [other] = 1 both satisfy the
    digit invariant, [expand(2)] adds no slot, and the carry out of the top
    digit trips the final-carry check. *)
Theorem add_assign_carry_out :
  canonical [9; 9] ∧ canonical [1] ∧ Bigint.add_assign [9; 9] [1] = None.
Proof.
  split; [|split].
  - solve_digits.
  - solve_digits.
  - by vm_compute.
Qed.

(** C7 as stated fails for the constructor: with a zero value, the padding
    alone is stored, so [Bigint(0, 1, 0)] is the single digit 0; and the
    fill digit is stored as given, so [Bigint(1, 1, 10)] holds a 10. *)
Lemma make_not_canonical :
  ¬ canonical (Bigint.make 0 1 0) ∧ ¬ canonical (Bigint.make 1 1 10).
Proof.
  split.
  - intros [_ Hlast]. by apply Hlast.
  - intros [Hok _]. apply Forall_cons in Hok as [Hd _]. vm_compute in Hd.
    destruct Hd as [_ Hd]. by apply Hd.
Qed.

(** C7, amended: every Bigint produced by [add_assign] or [mul_assign]
    (when the final-carry check passes) satisfies the representation
    invariant, and so does every Bigint constructed with a fill digit in
    [0,9] and with a nonzero value or a nonzero fill digit, or with no
    padding at all; [digit_at(i)] reads 0 for any [i] that is negative or at
    or beyond the stored length. *)
Theorem bigint_invariant :
  (∀ val e f, e = 0%nat ∨ 0 ≤ uchar f ≤ 9 →
              e = 0%nat ∨ u64 val ≠ 0 ∨ uchar f ≠ 0 →
              canonical (Bigint.make val e f)) ∧
  (∀ self rhs r, bytes self → Bigint.add_assign self rhs = Some r → canonical r) ∧
  (∀ self rhs r, bytes self → Bigint.mul_assign self rhs = Some r → canonical r) ∧
  (∀ digits i, i < 0 ∨ Bigint.ndigits digits ≤ i → Bigint.digit digits i = 0).
Proof.
  split; [apply make_canonical|]. split; [apply add_assign_canonical|].
  split; [apply mul_assign_canonical | apply digit_out_of_range].
Qed.

Lemma bigint_invariant_witness :
  canonical (Bigint.make 4 3 9) ∧ canonical [4; 1] ∧ canonical [1; 0; 9; 8; 9] ∧
  Bigint.digit [4; 1] 2 = 0.
Proof.
  destruct bigint_invariant as (Hmake & Hadd & Hmul & Hdigit).
  split; [|split; [|split]].
  - apply (Hmake 4 3%nat 9); right; [rewrite uchar_small; lia | left; by vm_compute].
  - apply (Hadd [9] [5]); [solve_digits | by vm_compute].
  - apply (Hmul [9; 9] [9; 9; 9]); [solve_digits | by vm_compute].
  - apply (Hdigit [4; 1] 2). right. by vm_compute.
Defined.

Lemma fp_btod_zero mantissa power2 precision st :
  u64 mantissa = 0 → power2 < 0 → 0 ≤ precision → cache_ok st →
  ∃ st', fp_btod mantissa power2 precision st
         = Some (fp_btod_format [] (-1) (power2 - 1) precision, st').
Proof.
  intros Hm He Hp Hst.
  destruct (power_of_spec 5 (- power2) st) as (p & st' & Hpow & _);
    [by right | done |].
  exists st'. unfold fp_btod, fp_btod_scale, fp_btod_round.
  rewrite make_unfold, Hm. change (replicate 0 _ ++ _) with (@nil Z).
  rewrite decide_False by lia. rewrite decide_True by lia.
  rewrite Hpow. cbn [mbind option_bind]. rewrite mul_assign_nil_l.
  cbn [mbind option_bind]. change (Bigint.ndigits []) with 0.
  rewrite decide_False by lia. cbn [mbind option_bind].
  replace (0 + power2 + (0 - 1)) with (power2 - 1) by lia. done.
Qed.

(** C8: when the scaled and rounded value has no stored digit, the exponent
    printed is [+00] whatever [power10] is; and [float_btod(0x00000000)]
    returns [" 0.00000000e+00"]. *)
Theorem true_zero_exponent :
  (∀ mantissa power2 precision st val0 power10 st' val,
     fp_btod_scale mantissa power2 st = Some (val0, power10, st') →
     fp_btod_round val0 (Bigint.ndigits val0 - 1) precision = Some val →
     Bigint.ndigits val = 0 →
     ∃ s, fp_btod mantissa power2 precision st = Some (s +:+ "e+00", st')) ∧
  (∀ st, cache_ok st →
     ∃ st', float_btod 0x00000000 st = Some (" 0.00000000e+00"%string, st')).
Proof.
  split.
  - intros mantissa power2 precision st val0 power10 st' val Hscale Hround Hz.
    unfold fp_btod. rewrite Hscale. cbn [mbind option_bind].
    rewrite Hround. cbn [mbind option_bind].
    unfold fp_btod_format.
    destruct (for_loop _ _ _ _) as [ret dp]. rewrite decide_True by done.
    by exists ret.
  - intros st Hst.
    destruct (fp_btod_zero 0 (-149) 9 st) as (st' & Hfp); [done.. |].
    exists st'.
    change (float_btod 0 st)
      with ('(s, st0) ← fp_btod 0 (-149) 9 st; Some (" " +:+ s, st0))%string.
    rewrite Hfp. reflexivity.
Qed.

Lemma true_zero_exponent_witness :
  (∃ s, fp_btod 0 (-3) 2 no_caches
        = Some (s +:+ "e+00", Caches ∅ {[3 := [5; 2; 1]; 2 := [5; 2]; 1 := [5]]})%string)
  ∧ ∃ st', float_btod 0x00000000 no_caches = Some (" 0.00000000e+00"%string, st').
Proof.
  destruct true_zero_exponent as [Hzero Hfloat]. split.
  - apply (Hzero 0 (-3) 2 no_caches [] (-3) _ []); reflexivity.
  - apply (Hfloat no_caches). apply cache_ok_empty.
Defined.

(** C9: when the biased exponent field is all ones, [ieee_btod] returns the
    sign character followed by ["NaN"] for a nonzero mantissa field and
    ["Inf"] for a zero one, and nothing else; in particular for
    [float_btod] at [0x7f800001] and [0x7f800000]. *)
Theorem ieee_btod_special (val ebits mbits digits : Z) (st : caches) :
  0 ≤ mbits → 0 ≤ ebits → ebits + mbits < 64 →
  (u64 val / 2 ^ mbits) mod 2 ^ ebits = 2 ^ ebits - 1 →
  ieee_btod val ebits mbits digits st =
    Some ((if Z.testbit (u64 val) (ebits + mbits) then "-" else " ") +:+
          (if decide (u64 val mod 2 ^ mbits ≠ 0) then "NaN" else "Inf"), st)%string
  ∧ float_btod 0x7f800001 st = Some (" NaN"%string, st)
  ∧ float_btod 0x7f800000 st = Some (" Inf"%string, st).
Proof.
  intros Hm He Hem Hexp. split; [|split; reflexivity].
  by apply ieee_btod_all_ones.
Qed.

Lemma ieee_btod_special_witness :
  ieee_btod 0xff800000 8 23 9 no_caches = Some ("-Inf"%string, no_caches).
Proof.
  apply (ieee_btod_special 0xff800000 8 23 9 no_caches); [lia | lia | lia | reflexivity].
Defined.

(** ** Rounding that carries into a new digit

    [fp_btod] rounds by adding [5 * 10^k] (or one less) to [val].  When the
    [precision] leading digits of [val] are all 9 and the next one is at
    least 5, the sum has one digit more than [val].  [operator+=] has only
    made sure of [k + 2] slots, which [val] already has, so the carry out of
    the top digit is left over and [assert(!carry)] fails.  The single
    precision pattern [0x19416d9a] (12676506 * 2^-100, about
    9.9999999982e-24) and the double precision pattern
    [0x3d06849b86a12b9b] are such inputs. *)

(** C1, at the failing inputs: the scaled value [12676506 * 5^100] has 77
    digits and rounds, to nine of them, up to [10^9]: the correctly rounded
    digits are 1.00000000 with the exponent one above that of the unrounded
    value; [fp_btod] emits nothing.  Likewise for 96 to one digit. *)
Theorem fp_btod_rounding_carry :
  10 ^ 76 ≤ scaled 12676506 (-100) < 10 ^ 77 ∧
  round_half_even (scaled 12676506 (-100)) (10 ^ (77 - 9)) = 10 ^ 9 ∧
  fresh (fp_btod 12676506 (-100) 9) = None ∧
  round_half_even (scaled 96 0) (10 ^ (2 - 1)) = 10 ^ 1 ∧
  fresh (fp_btod 96 0 1) = None.
Proof. by vm_compute. Qed.

(** C2, at the failing inputs: both patterns are finite (their exponent
    fields are 50 and 976, not all ones) and non-zero, and no decimal string
    is returned for them, so nothing parses back to them. *)
Theorem btod_no_round_trip :
  (0x19416d9a / 2 ^ 23) mod 2 ^ 8 = 50 ∧
  fresh (float_btod 0x19416d9a) = None ∧
  (0x3d06849b86a12b9b / 2 ^ 52) mod 2 ^ 11 = 976 ∧
  fresh (double_btod 0x3d06849b86a12b9b) = None.
Proof. by vm_compute. Qed.

(** C3, at the failing inputs: from [float_btod(0x19416d9a)] the driver
    reaches [val += Bigint(5, k, 0)] with a [val] on which the final-carry
    check of [normalise] fails; the same happens in [double_btod]. *)
Theorem final_carry_check_reached :
  (∃ p st val,
     power_of 5 100 no_caches = Some (p, st) ∧
     Bigint.mul_assign (Bigint.make 12676506 0 0) p = Some val ∧
     Bigint.ndigits val = 77 ∧
     Bigint.add_assign val (Bigint.make 5 (Z.to_nat (77 - 1 - 9)) 0) = None) ∧
  float_btod 0x19416d9a no_caches = None ∧
  double_btod 0x3d06849b86a12b9b no_caches = None.
Proof.
  split; [|by vm_compute].
  destruct (power_of 5 100 no_caches) as [[p st]|] eqn:Hp; [|by vm_compute in Hp].
  destruct (Bigint.mul_assign (Bigint.make 12676506 0 0) p) as [val|] eqn:Hval.
  - exists p, st, val. split; [done|]. split; [done|].
    vm_compute in Hp. injection Hp as <- <-.
    vm_compute in Hval. injection Hval as <-. by vm_compute.
  - vm_compute in Hp. injection Hp as <- <-. by vm_compute in Hval.
Qed.

(** C4, at the failing input: [float_btod(0x19416d9a)] returns no string at
    all, a fortiori none of the grammar.  (Whatever string it does return,
    for any pattern, is of the grammar: [entry_points_grammar].) *)
Theorem float_btod_no_output :
  fresh (float_btod 0x19416d9a) = None ∧
  btod_output_ok 9 (fresh (float_btod 0x19416d9a)) = false.
Proof. by vm_compute. Qed.

(** ** Further properties of [Bigint] *)

Lemma normalise_value i ds r :
  (i ≤ length ds)%nat → bytes ds → Bigint.normalise i ds = Some r →
  value r = value ds.
Proof.
  intros Hi Hds. rewrite normalise_spec by (done || by apply bytes_nonneg).
  case_decide as Hc; [|done]. intros [= <-].
  destruct (carry_norm_spec (drop i ds) 0 ltac:(lia)) as (_ & _ & _ & Hval).
  { apply Forall_drop. by apply bytes_nonneg. }
  rewrite Hc in Hval. rewrite <- (take_drop i ds) at 3.
  rewrite !value_app. lia.
Qed.

Lemma normalise_is_Some i ds :
  (i ≤ length ds)%nat → bytes ds →
  is_Some (Bigint.normalise i ds)
  ↔ value (drop i ds) < 10 ^ (Z.of_nat (length ds) - Z.of_nat i).
Proof.
  intros Hi Hds. rewrite normalise_spec by (done || by apply bytes_nonneg).
  destruct (carry_norm_spec (drop i ds) 0 ltac:(lia)) as (Hl & Hok & Hc & Hval).
  { apply Forall_drop. by apply bytes_nonneg. }
  pose proof (value_bound _ Hok) as Hb. rewrite Hl in Hb.
  rewrite length_drop in Hval, Hb.
  replace (Z.of_nat (length ds - i)) with (Z.of_nat (length ds) - Z.of_nat i)
    in Hval, Hb by lia.
  set (P := 10 ^ (Z.of_nat (length ds) - Z.of_nat i)) in *.
  case_decide as Hz.
  - split; [intros _; rewrite Hz in Hval; lia | eauto].
  - split; [by intros [? ?]|]. intros Hlt. exfalso. nia.
Qed.

Lemma contract_take ds :
  Bigint.contract ds = take (Bigint.contract_size (length ds) ds) ds.
Proof. unfold Bigint.contract. apply resize_le, contract_size_le. Qed.

Lemma contract_id ds : last ds ≠ Some 0 → Bigint.contract ds = ds.
Proof.
  destruct ds as [|x ds _] using rev_ind; [done|].
  rewrite last_snoc, contract_snoc. intros Hx.
  rewrite decide_False; [done | congruence].
Qed.

Lemma contract_app_zeros ds k :
  Bigint.contract (ds ++ replicate k 0) = Bigint.contract ds.
Proof.
  induction k as [|k IH]; [by rewrite app_nil_r|].
  rewrite replicate_S_end, app_assoc, contract_snoc. by rewrite decide_True.
Qed.

Lemma value_replicate f e : 9 * value (replicate e f) = f * (10 ^ Z.of_nat e - 1).
Proof.
  induction e as [|e IH]; [simpl; lia|].
  rewrite Nat2Z.inj_succ, Z.pow_succ_r by lia. simpl. lia.
Qed.

Lemma add_assign_short self rhs :
  digits_ok self → digits_ok rhs → (length self ≤ length rhs)%nat →
  ∃ r, Bigint.add_assign self rhs = Some r ∧ canonical r ∧
       value r = value self + value rhs.
Proof.
  intros Hs Hr Hlen. destruct (add_assign_spec self rhs Hs Hr) as [Hsome Hiff].
  pose proof (value_bound _ Hs) as Hbs. pose proof (value_bound _ Hr) as Hbr.
  assert (10 ^ Z.of_nat (length self) ≤ 10 ^ Z.of_nat (length rhs))
    by (apply Z.pow_le_mono_r; lia).
  destruct (proj2 Hiff) as [r Hrr].
  { replace (Z.of_nat (length self `max` (length rhs + 1)))
      with (Z.succ (Z.of_nat (length rhs))) by lia.
    rewrite Z.pow_succ_r by lia. lia. }
  exists r. split; [done|]. by apply Hsome.
Qed.

Lemma mul_assign_comm a b :
  digits_ok a → digits_ok b → Bigint.mul_assign a b = Bigint.mul_assign b a.
Proof.
  intros Ha Hb.
  destruct (mul_assign_spec a b Ha Hb) as (r & -> & Hr & Hvr).
  destruct (mul_assign_spec b a Hb Ha) as (r' & -> & Hr' & Hvr').
  f_equal. apply canonical_unique; [done..|]. lia.
Qed.

Lemma mul_assign_one a :
  canonical a → Bigint.mul_assign a (Bigint.make 1 0 0) = Some a.
Proof.
  intros Ha. destruct (make_spec 1) as [[H1 _] Hv1].
  destruct (mul_assign_spec a _ (proj1 Ha) H1) as (r & -> & Hr & Hvr).
  f_equal. apply canonical_unique; [done..|].
  rewrite Hvr, Hv1. change (u64 1) with 1. lia.
Qed.

Lemma mul_assign_assoc a b c :
  digits_ok a → digits_ok b → digits_ok c →
  (ab ← Bigint.mul_assign a b; Bigint.mul_assign ab c)
  = (bc ← Bigint.mul_assign b c; Bigint.mul_assign a bc).
Proof.
  intros Ha Hb Hc.
  destruct (mul_assign_spec a b Ha Hb) as (ab & -> & Hab & Hvab).
  destruct (mul_assign_spec b c Hb Hc) as (bc & -> & Hbc & Hvbc).
  cbn [mbind option_bind].
  destruct (mul_assign_spec ab c (proj1 Hab) Hc) as (r & -> & Hr & Hvr).
  destruct (mul_assign_spec a bc Ha (proj1 Hbc)) as (r' & -> & Hr' & Hvr').
  f_equal. apply canonical_unique; [done..|]. lia.
Qed.

Lemma mul_assign_zero_r a : digits_ok a → Bigint.mul_assign a [] = Some [].
Proof.
  intros Ha. destruct (mul_assign_spec a [] Ha ltac:(constructor))
    as (r & -> & Hr & Hvr).
  f_equal. apply canonical_nil_value; [done|]. simpl in Hvr. lia.
Qed.

(** ** Further properties of the power cache *)

Lemma power_of_base v n st : is_Some (power_of v n st) → v = 2 ∨ v = 5.
Proof. rewrite power_of_body. case_decide; [done | by intros [? ?]]. Qed.

Lemma powers_set_powers_other v n a st w :
  v = 2 ∨ v = 5 → w = 2 ∨ w = 5 → w ≠ v →
  powers w (set_powers v n a st) = powers w st.
Proof.
  intros Hv Hw Hne. unfold set_powers, powers.
  destruct Hv as [-> | ->], Hw as [-> | ->]; done.
Qed.

Lemma power_of_cache v n st : ∀ a st',
  power_of v n st = Some (a, st') →
  powers v st' !! u32 n = Some a ∧
  (∀ k b, powers v st !! k = Some b → powers v st' !! k = Some b) ∧
  (∀ k, u32 n < k → powers v st' !! k = powers v st !! k) ∧
  (∀ w, w = 2 ∨ w = 5 → w ≠ v → powers w st' = powers w st).
Proof.
  funelim (power_of v n st); intros r st'.
  - done.
  - intros [= <- <-]. done.
  - pose proof (u32_range n) as Hn.
    assert (u32 n ≠ 0) by (intros E; apply Hne; by rewrite E).
    pose proof (lowbit_bounds (u32 n) ltac:(lia)) as Hlb.
    destruct (power_of v (u32 n - lowbit (u32 n)) st) as [[a1 st1]|] eqn:E1; [|done].
    cbn [mbind option_bind].
    destruct (power_of v (lowbit (u32 n)) st1) as [[b st2]|] eqn:E2; [|done].
    cbn [mbind option_bind].
    destruct (Bigint.mul_assign a1 b) as [c|]; [|done].
    cbn [mbind option_bind]. intros [= <- <-].
    destruct (H0 _ _ eq_refl) as (_ & Hmono1 & Hhigh1 & Hother1).
    destruct (H (a1, st1) a1 st1 _ _ E2) as (_ & Hmono2 & Hhigh2 & Hother2).
    rewrite u32_id in Hhigh1, Hhigh2 by lia.
    split; [|split; [|split]].
    + rewrite powers_set_powers by done. by rewrite decide_True.
    + intros k b0 Hk. rewrite powers_set_powers by done.
      rewrite decide_False by (intros [_ <-]; congruence). auto.
    + intros k Hk. rewrite powers_set_powers by done.
      rewrite decide_False by lia. rewrite Hhigh2, Hhigh1 by lia. done.
    + intros w Hw Hne'. rewrite powers_set_powers_other by done.
      rewrite Hother2, Hother1 by done. done.
  - pose proof (u32_range n) as Hn.
    assert (0 ≤ u32 n / 2 < u32 n) by (Z.div_mod_to_equations; lia).
    destruct (power_of v (u32 n / 2) st) as [[a1 st1]|] eqn:E1; [|done].
    cbn [mbind option_bind].
    destruct (Bigint.mul_assign a1 a1) as [c|]; [|done].
    cbn [mbind option_bind]. intros [= <- <-].
    destruct (H _ _ eq_refl) as (_ & Hmono1 & Hhigh1 & Hother1).
    rewrite u32_id in Hhigh1 by lia.
    split; [|split; [|split]].
    + rewrite powers_set_powers by done. by rewrite decide_True.
    + intros k b0 Hk. rewrite powers_set_powers by done.
      rewrite decide_False by (intros [_ <-]; congruence). auto.
    + intros k Hk. rewrite powers_set_powers by done.
      rewrite decide_False by lia. rewrite Hhigh1 by lia. done.
    + intros w Hw Hne'. rewrite powers_set_powers_other by done.
      rewrite Hother1 by done. done.
  - intros [= <- <-].
    split; [|split; [|split]].
    + rewrite powers_set_powers by done. by rewrite decide_True.
    + intros k b0 Hk. rewrite powers_set_powers by done.
      rewrite decide_False by (intros [_ <-]; congruence). auto.
    + intros k Hk. rewrite powers_set_powers by done.
      rewrite decide_False by lia. done.
    + intros w Hw Hne'. by rewrite powers_set_powers_other.
Qed.

Lemma power_of_again v n st a st' :
  power_of v n st = Some (a, st') → power_of v n st' = Some (a, st').
Proof.
  intros Hp. assert (v = 2 ∨ v = 5) by (apply (power_of_base v n st); eauto).
  apply power_of_cache in Hp as (Hhit & _).
  rewrite power_of_body, decide_True by done. by rewrite Hhit.
Qed.

Lemma power_of_any_cache v n st1 st2 :
  v = 2 ∨ v = 5 → cache_ok st1 → cache_ok st2 →
  fst <$> power_of v n st1 = fst <$> power_of v n st2.
Proof.
  intros Hv H1 H2.
  destruct (power_of_spec v n st1 Hv H1) as (a1 & ? & -> & Ha1 & Hv1 & _).
  destruct (power_of_spec v n st2 Hv H2) as (a2 & ? & -> & Ha2 & Hv2 & _).
  simpl. f_equal. apply canonical_unique; [done..|]. congruence.
Qed.

(** ** Further properties of the driver and the decoder *)

(** No entry of either map is ever removed or changed. *)
Definition cache_grows (st st' : caches) : Prop :=
  ∀ w k b, w = 2 ∨ w = 5 → powers w st !! k = Some b → powers w st' !! k = Some b.

Lemma cache_grows_refl st : cache_grows st st.
Proof. by intros w k b _. Qed.

Lemma power_of_grows v n st a st' :
  power_of v n st = Some (a, st') → cache_grows st st'.
Proof.
  intros Hp w k b Hw Hk.
  assert (v = 2 ∨ v = 5) as Hv by (apply (power_of_base v n st); eauto).
  apply power_of_cache in Hp as (_ & Hmono & _ & Hother).
  destruct (decide (w = v)) as [-> | Hne]; [by apply Hmono|].
  by rewrite Hother.
Qed.

Lemma fp_btod_scale_total mantissa power2 :
  ∃ val power10, canonical val ∧
    ∀ st, cache_ok st →
      ∃ st', fp_btod_scale mantissa power2 st = Some (val, power10, st') ∧
             cache_ok st' ∧ cache_grows st st'.
Proof.
  unfold fp_btod_scale. destruct (make_spec mantissa) as [Hmk _].
  assert (∀ v n, v = 2 ∨ v = 5 →
            ∃ val, canonical val ∧ ∀ st, cache_ok st →
              ∃ st', (power_of v n st
                      ≫= λ '(p, st), Bigint.mul_assign (Bigint.make mantissa 0 0) p
                      ≫= λ val, Some (val, st))
                     = Some (val, st') ∧ cache_ok st' ∧ cache_grows st st') as Hcase.
  { intros v n Hv.
    destruct (power_of_spec v n no_caches Hv cache_ok_empty) as (p & ? & _ & Hp & Hvp & _).
    destruct (mul_assign_spec _ p (proj1 Hmk) (proj1 Hp)) as (val & Hval & Hc & _).
    exists val. split; [done|]. intros st Hst.
    destruct (power_of_spec v n st Hv Hst) as (p' & st' & Hpow & Hp' & Hvp' & Hst').
    assert (p' = p) as -> by (apply canonical_unique; [done..|congruence]).
    rewrite Hpow. cbn [mbind option_bind]. rewrite Hval. cbn [mbind option_bind].
    exists st'. split; [done|]. split; [done|]. by eapply power_of_grows. }
  destruct (decide (0 < power2)); [|destruct (decide (power2 < 0))].
  - destruct (Hcase 2 power2 ltac:(by left)) as (val & Hc & Hval).
    exists val, 0. split; [done|]. intros st Hst.
    destruct (Hval st Hst) as (st' & Heq & ? & ?). exists st'. split; [|done].
    destruct (power_of 2 power2 st) as [[p st1]|]; [|done].
    cbn [mbind option_bind] in *.
    destruct (Bigint.mul_assign _ p); [|done]. cbn [mbind option_bind] in *.
    congruence.
  - destruct (Hcase 5 (- power2) ltac:(by right)) as (val & Hc & Hval).
    exists val, (0 + power2). split; [done|]. intros st Hst.
    destruct (Hval st Hst) as (st' & Heq & ? & ?). exists st'. split; [|done].
    destruct (power_of 5 (- power2) st) as [[p st1]|]; [|done].
    cbn [mbind option_bind] in *.
    destruct (Bigint.mul_assign _ p); [|done]. cbn [mbind option_bind] in *.
    congruence.
  - exists (Bigint.make mantissa 0 0), 0. split; [done|]. intros st Hst.
    exists st. split; [done|]. split; [done | apply cache_grows_refl].
Qed.

(** The text [fp_btod] returns, or its failure, does not depend on what the
    caches hold; a completed call leaves them right and only adds to
    them. *)
Lemma fp_btod_total mantissa power2 precision :
  ∃ r : option string,
    ∀ st, cache_ok st →
      match r with
      | Some s => ∃ st', fp_btod mantissa power2 precision st = Some (s, st') ∧
                         cache_ok st' ∧ cache_grows st st'
      | None => fp_btod mantissa power2 precision st = None
      end.
Proof.
  destruct (fp_btod_scale_total mantissa power2) as (val & power10 & Hc & Hscale).
  unfold fp_btod.
  destruct (fp_btod_round val (Bigint.ndigits val - 1) precision) as [val'|] eqn:E.
  - eexists (Some _). intros st Hst.
    destruct (Hscale st Hst) as (st' & -> & ? & ?). cbn [mbind option_bind].
    rewrite E. cbn [mbind option_bind]. by exists st'.
  - exists None. intros st Hst.
    destruct (Hscale st Hst) as (st' & -> & ? & ?). cbn [mbind option_bind].
    by rewrite E.
Qed.

Lemma ieee_btod_total val ebits mbits digits :
  ∃ r : option string,
    ∀ st, cache_ok st →
      match r with
      | Some s => ∃ st', ieee_btod val ebits mbits digits st = Some (s, st') ∧
                         cache_ok st' ∧ cache_grows st st'
      | None => ieee_btod val ebits mbits digits st = None
      end.
Proof.
  unfold ieee_btod. case_decide.
  - eexists (Some _). intros st Hst. exists st.
    split; [done|]. split; [done | apply cache_grows_refl].
  - match goal with
    | |- context [let '(_, _) := ?c in _] => destruct c as [m' e']
    end.
    match goal with
    | |- context [fp_btod ?m ?e ?d _] => destruct (fp_btod_total m e d) as [[s|] Hr]
    end.
    + eexists (Some _). intros st Hst. destruct (Hr st Hst) as (st' & -> & ? & ?).
      cbn [mbind option_bind]. by exists st'.
    + exists None. intros st Hst. by rewrite (Hr st Hst).
Qed.

Lemma testbit_below v k : 0 ≤ k → 0 ≤ v < 2 ^ k → Z.testbit v k = false.
Proof.
  intros Hk Hv. replace v with (v mod 2 ^ k) by (by apply Z.mod_small).
  by rewrite Z.mod_pow2_bits_high by lia.
Qed.

Lemma testbit_add_pow2 v k : 0 ≤ k → 0 ≤ v < 2 ^ k → Z.testbit (v + 2 ^ k) k = true.
Proof.
  intros Hk Hv. rewrite <- lor_pow2 by done.
  rewrite Z.lor_spec, Z.pow2_bits_true by done. apply orb_true_r.
Qed.

(** Setting the sign bit changes the sign character and nothing else. *)
Lemma ieee_btod_sign v ebits mbits digits st body st' :
  0 ≤ mbits → 2 ≤ ebits ≤ 31 → ebits + mbits < 64 →
  0 ≤ v < 2 ^ (ebits + mbits) →
  ieee_btod v ebits mbits digits st = Some (String " " body, st')
  ↔ ieee_btod (v + 2 ^ (ebits + mbits)) ebits mbits digits st
    = Some (String "-" body, st').
Proof.
  intros Hm He Hem Hv.
  assert (2 ^ (ebits + mbits) ≤ 2 ^ 63) by (apply Z.pow_le_mono_r; lia).
  assert (0 < 2 ^ mbits ∧ 0 < 2 ^ ebits) as [HPm HPe]
    by (split; apply Z.pow_pos_nonneg; lia).
  assert (2 ^ (ebits + mbits) = 2 ^ ebits * 2 ^ mbits) as Hsplit
    by (by rewrite Z.pow_add_r by lia).
  assert (u64 v = v) as Hu by (apply Z.mod_small; lia).
  assert (u64 (v + 2 ^ (ebits + mbits)) = v + 2 ^ (ebits + mbits)) as Hu'
    by (apply Z.mod_small; lia).
  assert (((v + 2 ^ (ebits + mbits)) / 2 ^ mbits) mod 2 ^ ebits
          = (v / 2 ^ mbits) mod 2 ^ ebits) as HF.
  { rewrite Hsplit, Z.div_add by lia.
    rewrite <- (Z.mul_1_l (2 ^ ebits)) at 1. by rewrite Z_mod_plus_full. }
  assert ((v + 2 ^ (ebits + mbits)) mod 2 ^ mbits = v mod 2 ^ mbits) as HM
    by (rewrite Hsplit; apply Z_mod_plus_full).
  pose proof (testbit_below v (ebits + mbits) ltac:(lia) Hv) as Hb.
  pose proof (testbit_add_pow2 v (ebits + mbits) ltac:(lia) Hv) as Hb'.
  destruct (decide ((v / 2 ^ mbits) mod 2 ^ ebits = 2 ^ ebits - 1)) as [Hs | Hf].
  - rewrite !ieee_btod_all_ones by (rewrite ?Hu, ?Hu', ?HF; done || lia).
    rewrite Hu, Hu', HM, Hb, Hb', !append_cons, !append_nil_l.
    split; intros [= <- <-]; done.
  - rewrite !ieee_btod_finite by (rewrite ?Hu, ?Hu', ?HF; done || lia).
    rewrite Hu, Hu', HF, HM, Hb, Hb'.
    match goal with
    | |- context [fp_btod ?m ?e digits st] =>
        destruct (fp_btod m e digits st) as [[s st1]|]
    end; cbn [mbind option_bind]; [|done].
    rewrite !append_cons, !append_nil_l. split; intros [= <- <-]; done.
Qed.

(** ** The width of the text *)

Lemma length_string_of_list l : String.length (string_of_list_ascii l) = length l.
Proof. induction l as [|a l IH]; simpl; [done | by rewrite IH]. Qed.

Lemma length_append s t :
  String.length (s +:+ t) = (String.length s + String.length t)%nat.
Proof.
  induction s as [|a s IH]; [done|]. rewrite append_cons. simpl. by rewrite IH.
Qed.

Lemma decimal_lsb_length fuel v k :
  0 ≤ v < 10 ^ Z.of_nat fuel → v < 10 ^ Z.of_nat k →
  (length (Bigint.decimal_lsb fuel v) ≤ k)%nat.
Proof.
  intros Hv Hk. destruct (decimal_lsb_spec fuel v Hv) as [Hc Hval].
  destruct (decide (Bigint.decimal_lsb fuel v = [])) as [-> | Hne]; [simpl; lia|].
  pose proof (value_lower_bound _ Hc Hne) as Hlb. rewrite Hval in Hlb.
  destruct (Nat.le_gt_cases (length (Bigint.decimal_lsb fuel v)) k) as [|Hgt];
    [done|].
  assert (10 ^ Z.of_nat k ≤ 10 ^ (Z.of_nat (length (Bigint.decimal_lsb fuel v)) - 1))
    by (apply Z.pow_le_mono_r; lia).
  lia.
Qed.

Lemma sprintf_e03d_length x :
  Z.abs x < 100 → String.length (sprintf_e03d x) = 4%nat.
Proof.
  intros Hx. unfold sprintf_e03d. cbn [String.length].
  rewrite length_string_of_list, length_fmap, length_app, length_replicate.
  rewrite length_rev.
  pose proof (decimal_lsb_length 10 (Z.abs x) 2 ltac:(simpl; lia) ltac:(simpl; lia)).
  lia.
Qed.

Lemma render_length digits x :
  digits ≠ [] → Z.abs x < 100 →
  String.length (render digits x) = (length digits + 5)%nat.
Proof.
  intros Hne Hx. destruct digits as [|d digits]; [done|]. unfold render.
  rewrite length_append, sprintf_e03d_length by done. cbn [String.length].
  rewrite length_string_of_list, length_fmap. simpl. lia.
Qed.

Lemma pow10_lt_inv a b : 0 ≤ b → 10 ^ a < 10 ^ b → a < b.
Proof. intros Hb Hlt. by apply (Z.pow_lt_mono_r_iff 10 a b). Qed.

(** What a returned text is made of: [precision] digits and the decimal
    exponent of the unrounded value. *)
Lemma fp_btod_returns mantissa power2 precision st s st' :
  cache_ok st → 0 ≤ mantissa < 2 ^ 64 → - 2 ^ 31 ≤ power2 < 2 ^ 31 →
  1 ≤ precision →
  fp_btod mantissa power2 precision st = Some (s, st') →
  ∃ digits x,
    s = render digits x ∧ length digits = Z.to_nat precision ∧
    (mantissa = 0 → x = 0) ∧
    (0 < mantissa →
       ∃ n, 1 ≤ n ∧ 10 ^ (n - 1) ≤ scaled mantissa power2 < 10 ^ n ∧
            x = n - 1 + if decide (power2 < 0) then power2 else 0).
Proof.
  intros Hst Hm He Hp Hfp.
  destruct (fp_btod_scale_spec mantissa power2 st Hst Hm ltac:(lia))
    as (val & st1 & Hscale & Hcan & Hval & _).
  destruct (decide (mantissa = 0)) as [-> | Hnz].
  - assert (val = []) as ->.
    { apply canonical_nil_value; [done|]. rewrite Hval. unfold scaled. lia. }
    revert Hfp. unfold fp_btod. rewrite Hscale. cbn [mbind option_bind].
    unfold fp_btod_round. change (Bigint.ndigits []) with 0.
    rewrite (decide_False (P := 0 ≤ 0 - 1 - precision)) by lia. cbn [mbind option_bind]. intros [= <- <-].
    rewrite fp_btod_format_render by done. eexists _, _. split; [done|].
    rewrite length_fmap, length_seq.
    split; [done|]. split; [intros _; by rewrite decide_True | lia].
  - assert (0 < scaled mantissa power2) as Hpos.
    { unfold scaled. apply Z.mul_pos_pos; [lia|].
      destruct (decide (0 < power2)); apply Z.pow_pos_nonneg; lia. }
    assert (val ≠ []) as Hne by (intros ->; simpl in Hval; lia).
    pose proof (value_lower_bound _ Hcan Hne) as Hlb.
    pose proof (value_bound _ (proj1 Hcan)) as Hub. rewrite Hval in Hlb, Hub.
    set (n := Z.of_nat (length val)) in *.
    assert (1 ≤ n) by (unfold n; destruct val; [done | simpl; lia]).
    pose proof (fp_btod_spec mantissa power2 precision n st Hst ltac:(lia)
                  ltac:(lia) Hp ltac:(lia)) as Hspec.
    cbv zeta in Hspec.
    match type of Hspec with
    | if decide (?R < _) then _ else _ =>
        destruct (decide (R < 10 ^ precision)) as [HR | HR];
        [exists (sig_digits precision R) | congruence]
    end.
    destruct Hspec as (st2 & Hfp' & _). rewrite Hfp in Hfp'.
    injection Hfp' as -> _. eexists. split; [done|].
    split; [apply sig_digits_length|]. split; [lia|]. intros _.
    exists n. split; [done|]. split; [lia | done].
Qed.

(** The exponent of a single-precision value has two digits. *)
Lemma float_exponent_bound mantissa power2 n :
  0 < mantissa < 2 ^ 24 → -149 ≤ power2 ≤ 104 → 1 ≤ n →
  10 ^ (n - 1) ≤ scaled mantissa power2 < 10 ^ n →
  Z.abs (n - 1 + if decide (power2 < 0) then power2 else 0) < 100.
Proof.
  intros Hm He Hn [Hlo Hhi]. unfold scaled in *.
  destruct (decide (power2 < 0)) as [Hneg | Hpos].
  - rewrite decide_False in Hlo, Hhi by lia.
    set (k := - power2) in *. assert (1 ≤ k ≤ 149) by lia.
    assert (0 < 5 ^ k ≤ 10 ^ k)
      by (split; [apply Z.pow_pos_nonneg | apply Z.pow_le_mono_l]; lia).
    assert (2 ^ 24 < 10 ^ 8) by (by vm_compute).
    assert (n - 1 < 8 + k).
    { apply pow10_lt_inv; [lia|]. rewrite Z.pow_add_r by lia. nia. }
    assert (k - 99 < n).
    { destruct (decide (k ≤ 99)); [lia|]. apply pow10_lt_inv; [lia|].
      assert (10 ^ (k - 99) ≤ 5 ^ k); [|nia].
      replace k with ((k - 99) + 99) at 2 by lia.
      rewrite Z.pow_add_r by lia. change 10 with (2 * 5) at 1.
      rewrite Z.pow_mul_l.
      assert (2 ^ (k - 99) ≤ 2 ^ 50) by (apply Z.pow_le_mono_r; lia).
      assert (2 ^ 50 ≤ 5 ^ 99) by (by vm_compute).
      assert (0 < 5 ^ (k - 99)) by (apply Z.pow_pos_nonneg; lia).
      nia. }
    lia.
  - assert (n - 1 < 39); [|lia].
    apply pow10_lt_inv; [lia|].
    assert (2 ^ 24 * 2 ^ 104 < 10 ^ 39) by (by vm_compute).
    case_decide.
    + assert (0 < 2 ^ power2 ≤ 2 ^ 104)
        by (split; [apply Z.pow_pos_nonneg | apply Z.pow_le_mono_r]; lia).
      nia.
    + replace power2 with 0 in * by lia. simpl in Hlo. lia.
Qed.

Lemma float_text_length mantissa power2 st s st' :
  cache_ok st → 0 ≤ mantissa < 2 ^ 24 → -149 ≤ power2 ≤ 104 →
  fp_btod mantissa power2 9 st = Some (s, st') → String.length s = 14%nat.
Proof.
  intros Hst Hm He Hfp.
  apply fp_btod_returns in Hfp as (digits & x & -> & Hlen & Hzero & Hnz);
    [| done | lia | lia | done].
  assert (Z.abs x < 100) as Hx.
  { destruct (decide (mantissa = 0)) as [Hz | Hz].
    - rewrite (Hzero Hz). done.
    - destruct Hnz as (n & Hn & Hbound & ->); [lia|].
      apply (float_exponent_bound mantissa); (done || lia). }
  assert (digits ≠ []) by (intros ->; done).
  rewrite render_length by done. by rewrite Hlen.
Qed.

(** Every text [float_btod] returns has four characters for a NaN or an
    infinity and fifteen otherwise. *)
Lemma float_btod_length val st s st' :
  cache_ok st → float_btod val st = Some (s, st') →
  String.length s =
    if decide ((u32 val / 2 ^ 23) mod 2 ^ 8 = 255) then 4%nat else 15%nat.
Proof.
  intros Hst. unfold float_btod.
  assert (u64 (u32 val) = u32 val) as Hu
    by (pose proof (u32_range val); apply Z.mod_small; lia).
  pose proof (Z.mod_pos_bound (u32 val / 2 ^ 23) (2 ^ 8) ltac:(done)) as HF.
  pose proof (Z.mod_pos_bound (u32 val) (2 ^ 23) ltac:(done)) as HM.
  case_decide as Hs.
  - rewrite ieee_btod_all_ones by (rewrite ?Hu; done).
    match goal with
    | |- context [Z.testbit ?a ?b] => destruct (Z.testbit a b)
    end; case_decide; intros [= <- <-]; done.
  - rewrite ieee_btod_finite by (rewrite ?Hu; done || lia). rewrite Hu.
    match goal with
    | |- context [fp_btod ?m ?e 9 st] =>
        destruct (fp_btod m e 9 st) as [[s0 st0]|] eqn:Hfp; [|done];
        assert (0 ≤ m < 2 ^ 24 ∧ -149 ≤ e ≤ 104) as [HmR HeR]
          by (change (2 ^ (8 - 1) - 2 + 23) with 149; change (2 ^ 8) with 256 in *;
              change (2 ^ 23) with 8388608 in *;
              split; case_decide; lia)
    end.
    apply float_text_length in Hfp; [|done..].
    cbn [mbind option_bind].
    match goal with
    | |- context [Z.testbit ?a ?b] => destruct (Z.testbit a b)
    end; rewrite append_cons, append_nil_l; intros [= <- <-];
      cbn [String.length]; by rewrite Hfp.
Qed.

(** ** Further properties of the code *)

(** X1: [normalise(i)] on a vector of bytes passes its final-carry check
    exactly when the digits from index [i] on stand for a number below
    [10^(size - i)]; when it passes, it keeps the length, the digits below
    [i] and the value, and leaves decimal digits from [i] on. *)
Theorem normalise_correct (i : nat) (digits : list Z) :
  (i ≤ length digits)%nat → bytes digits →
  (is_Some (Bigint.normalise i digits)
   ↔ value (drop i digits) < 10 ^ (Z.of_nat (length digits) - Z.of_nat i)) ∧
  ∀ r, Bigint.normalise i digits = Some r →
       length r = length digits ∧ take i r = take i digits ∧
       digits_ok (drop i r) ∧ value r = value digits.
Proof.
  intros Hi Hb. split; [by apply normalise_is_Some|]. intros r Hr.
  destruct (normalise_result i digits r Hi Hb Hr) as (? & ? & ?).
  repeat split; try done. by eapply normalise_value.
Qed.

Lemma normalise_correct_witness :
  length [7; 5; 5] = length [7; 25; 3] ∧ take 1 [7; 5; 5] = take 1 [7; 25; 3] ∧
  digits_ok (drop 1 [7; 5; 5]) ∧ value [7; 5; 5] = value [7; 25; 3].
Proof.
  apply (normalise_correct 1 [7; 25; 3]); [simpl; lia | solve_digits | by vm_compute].
Defined.

(** X2: [contract] keeps the value, returns a prefix of the vector whose
    last digit is not zero, changes nothing when the last digit is already
    nonzero, and turns any vector of decimal digits into one satisfying the
    representation invariant. *)
Theorem contract_correct (digits : list Z) :
  value (Bigint.contract digits) = value digits ∧
  last (Bigint.contract digits) ≠ Some 0 ∧
  Bigint.contract digits `prefix_of` digits ∧
  (last digits ≠ Some 0 → Bigint.contract digits = digits) ∧
  (digits_ok digits → canonical (Bigint.contract digits)).
Proof.
  split; [apply value_contract|]. split; [apply contract_last|].
  split; [|split; [apply contract_id | apply contract_canonical]].
  rewrite contract_take. eexists. symmetry. apply take_drop.
Qed.

Lemma contract_correct_witness :
  Bigint.contract [3; 1] = [3; 1] ∧ canonical (Bigint.contract [3; 0; 0]).
Proof.
  destruct (contract_correct [3; 1]) as (_ & _ & _ & Hid & _).
  destruct (contract_correct [3; 0; 0]) as (_ & _ & _ & _ & Hcan).
  split; [by apply Hid | apply Hcan; solve_digits].
Defined.

(** X3: [expand(size)] pads with zeros up to [size] digits and never
    shortens: it keeps the stored digits and the value; a [contract] after
    it undoes it. *)
Theorem expand_then_contract (size : nat) (digits : list Z) :
  length (Bigint.expand size digits) = (size `max` length digits)%nat ∧
  take (length digits) (Bigint.expand size digits) = digits ∧
  value (Bigint.expand size digits) = value digits ∧
  Bigint.contract (Bigint.expand size digits) = Bigint.contract digits.
Proof.
  rewrite expand_spec. split; [|split; [|split]].
  - rewrite length_app, length_replicate. lia.
  - by rewrite take_app_length.
  - rewrite value_app, value_replicate_0. lia.
  - apply contract_app_zeros.
Qed.

(** X4: the constructor stores [extradigits] copies of the fill digit and
    above them the decimal digits of [val] (an [unsigned long long]), least
    significant first, none for zero and without a leading zero; so the
    value is [val * 10^extradigits] plus the fill digit repeated. *)
Theorem make_value (val : Z) (extradigits : nat) (filldigit : Z) :
  take extradigits (Bigint.make val extradigits filldigit)
    = replicate extradigits (uchar filldigit) ∧
  canonical (drop extradigits (Bigint.make val extradigits filldigit)) ∧
  value (drop extradigits (Bigint.make val extradigits filldigit)) = u64 val ∧
  (drop extradigits (Bigint.make val extradigits filldigit) = [] ↔ u64 val = 0) ∧
  9 * value (Bigint.make val extradigits filldigit)
    = uchar filldigit * (10 ^ Z.of_nat extradigits - 1)
      + 9 * 10 ^ Z.of_nat extradigits * u64 val.
Proof.
  rewrite make_unfold.
  destruct (decimal_lsb_spec 20 (u64 val)) as (Hc & Hv).
  { pose proof (u64_range val).
    assert (2 ^ 64 < 10 ^ Z.of_nat 20) by (by vm_compute). lia. }
  assert (length (replicate extradigits (uchar filldigit)) = extradigits) as Hl
    by apply length_replicate.
  rewrite take_app_length', drop_app_length' by done.
  split; [done|]. split; [done|]. split; [done|]. split.
  - split; [intros E; by rewrite E in Hv|].
    intros E. by apply canonical_nil_value; [|rewrite Hv].
  - rewrite value_app, Hl, Hv. pose proof (value_replicate (uchar filldigit) extradigits).
    lia.
Qed.

(** X5: on operands of decimal digits, [operator+=] passes its final-carry
    check exactly when the sum is below
    [10^max(len(self), len(rhs)+1)], and then leaves the exact sum in
    canonical form; this is always so when [self] is no longer than
    [rhs]. *)
Theorem add_assign_exact (self rhs : list Z) :
  digits_ok self → digits_ok rhs →
  (is_Some (Bigint.add_assign self rhs)
   ↔ value self + value rhs
       < 10 ^ Z.of_nat (length self `max` (length rhs + 1))) ∧
  (∀ r, Bigint.add_assign self rhs = Some r →
        canonical r ∧ value r = value self + value rhs) ∧
  ((length self ≤ length rhs)%nat → is_Some (Bigint.add_assign self rhs)).
Proof.
  intros Hs Hr. destruct (add_assign_spec self rhs Hs Hr) as [Hsome Hiff].
  split; [done|]. split; [done|]. intros Hlen.
  destruct (add_assign_short self rhs Hs Hr Hlen) as (r & -> & _). eauto.
Qed.

Lemma add_assign_exact_witness :
  canonical [0; 0; 1] ∧ value [0; 0; 1] = value [1] + value [9; 9].
Proof.
  apply (add_assign_exact [1] [9; 9]); [solve_digits | solve_digits | by vm_compute].
Defined.

(** X6: on operands of decimal digits, [operator*=] never fails its
    final-carry check and leaves the exact product in canonical form. *)
Theorem mul_assign_exact (self rhs : list Z) :
  digits_ok self → digits_ok rhs →
  ∃ r, Bigint.mul_assign self rhs = Some r ∧ canonical r ∧
       value r = value self * value rhs.
Proof. apply mul_assign_spec. Qed.

Lemma mul_assign_exact_witness :
  ∃ r, Bigint.mul_assign [9; 9] [9; 9; 9] = Some r ∧ canonical r ∧
       value r = value [9; 9] * value [9; 9; 9].
Proof. apply (mul_assign_exact [9; 9] [9; 9; 9]); solve_digits. Defined.

(** X7: as operations on stored vectors, [operator*=] is commutative and
    associative on operands of decimal digits, has [Bigint(1)] as unit on
    canonical operands, and gives the empty vector when either operand is
    zero. *)
Theorem mul_assign_laws (a b c : list Z) :
  digits_ok a → digits_ok b → digits_ok c →
  Bigint.mul_assign a b = Bigint.mul_assign b a ∧
  (ab ← Bigint.mul_assign a b; Bigint.mul_assign ab c)
    = (bc ← Bigint.mul_assign b c; Bigint.mul_assign a bc) ∧
  (last a ≠ Some 0 → Bigint.mul_assign a (Bigint.make 1 0 0) = Some a) ∧
  Bigint.mul_assign a [] = Some [] ∧
  Bigint.mul_assign [] a = Some [].
Proof.
  intros Ha Hb Hc. split; [by apply mul_assign_comm|].
  split; [by apply mul_assign_assoc|]. split; [|split].
  - intros Hl. by apply mul_assign_one.
  - by apply mul_assign_zero_r.
  - apply mul_assign_nil_l.
Qed.

Lemma mul_assign_laws_witness :
  Bigint.mul_assign [2; 1] [5] = Bigint.mul_assign [5] [2; 1] ∧
  Bigint.mul_assign [2; 1] (Bigint.make 1 0 0) = Some [2; 1].
Proof.
  destruct (mul_assign_laws [2; 1] [5] [7]) as (Hcomm & _ & Hone & _);
    [solve_digits..|].
  split; [exact Hcomm | by apply Hone].
Defined.

(** X8: on a Bigint satisfying the representation invariant, [digit(i)] is
    the decimal digit of weight [10^i] of the value, and [ndigits()] is the
    number of decimal digits of the value (0 for zero). *)
Theorem digit_is_decimal_digit (digits : list Z) :
  canonical digits →
  (∀ i, 0 ≤ i → Bigint.digit digits i = (value digits / 10 ^ i) mod 10) ∧
  (Bigint.ndigits digits = 0 ↔ value digits = 0) ∧
  (value digits ≠ 0 →
     10 ^ (Bigint.ndigits digits - 1) ≤ value digits < 10 ^ Bigint.ndigits digits).
Proof.
  intros Hc. split; [intros i Hi; by apply digit_value; [apply Hc|]|]. split.
  - unfold Bigint.ndigits. split.
    + destruct digits; [done | simpl; lia].
    + intros Hv. by rewrite (canonical_nil_value digits).
  - intros Hnz. assert (digits ≠ []) by (by intros ->).
    split; [by apply value_lower_bound | apply value_bound, Hc].
Qed.

Lemma digit_is_decimal_digit_witness :
  Bigint.digit [4; 0; 1] 1 = (value [4; 0; 1] / 10 ^ 1) mod 10 ∧
  10 ^ (Bigint.ndigits [4; 0; 1] - 1) ≤ value [4; 0; 1] < 10 ^ Bigint.ndigits [4; 0; 1].
Proof.
  destruct (digit_is_decimal_digit [4; 0; 1]) as (Hd & _ & Hn); [solve_digits|].
  split; [by apply Hd | by apply Hn].
Defined.

(** X9: a successful [power_of(v, n)] leaves its result in the cache of
    base [v] under key [n], keeps every entry that was there, touches no
    key above [n] and nothing in the other base's cache; the same call on
    the resulting caches is a hit that returns the same Bigint and leaves
    the caches as they are. *)
Theorem power_of_memoises (v n : Z) (st : caches) (a : list Z) (st' : caches) :
  power_of v n st = Some (a, st') →
  powers v st' !! u32 n = Some a ∧
  cache_grows st st' ∧
  (∀ k, u32 n < k → powers v st' !! k = powers v st !! k) ∧
  (∀ w, w = 2 ∨ w = 5 → w ≠ v → powers w st' = powers w st) ∧
  power_of v n st' = Some (a, st').
Proof.
  intros H. destruct (power_of_cache v n st a st' H) as (H1 & _ & H3 & H4).
  split; [done|]. split; [by eapply power_of_grows|].
  split; [done|]. split; [done|]. by eapply power_of_again.
Qed.

Lemma power_of_memoises_witness :
  ∃ a st', power_of 2 3 no_caches = Some (a, st') ∧
    (powers 2 st' !! u32 3 = Some a ∧
     cache_grows no_caches st' ∧
     (∀ k, u32 3 < k → powers 2 st' !! k = powers 2 no_caches !! k) ∧
     (∀ w, w = 2 ∨ w = 5 → w ≠ 2 → powers w st' = powers w no_caches) ∧
     power_of 2 3 st' = Some (a, st')).
Proof.
  eexists _, _. split; [by vm_compute|].
  apply (power_of_memoises 2 3 no_caches). by vm_compute.
Defined.

(** X10: the Bigint returned by [power_of] (and whether the call fails)
    does not depend on what the caches hold, as long as every cached entry
    is the canonical power its key names. *)
Theorem power_of_cache_transparent (v n : Z) (st1 st2 : caches) :
  v = 2 ∨ v = 5 → cache_ok st1 → cache_ok st2 →
  fst <$> power_of v n st1 = fst <$> power_of v n st2.
Proof. apply power_of_any_cache. Qed.

Lemma power_of_cache_transparent_witness :
  fst <$> power_of 5 6 no_caches
  = fst <$> power_of 5 6 (set_powers 5 2 [5; 2] no_caches).
Proof.
  apply (power_of_cache_transparent 5 6); [by right | apply cache_ok_empty |].
  apply cache_ok_set; [by right | apply cache_ok_empty | solve_digits | by vm_compute].
Defined.

(** X11: for a nonzero mantissa whose scaled value
    [mantissa * 2^power2] (for [power2 > 0]) or [mantissa * 5^-power2]
    (otherwise) has [n] decimal digits, [fp_btod] rounds it half-to-even to
    [precision] significant digits [R] and returns those digits with the
    exponent [n - 1] (plus [power2] when negative); when rounding carries
    [R] up to [10^precision], the call fails instead of returning. *)
Theorem fp_btod_rounds_half_even (mantissa power2 precision n : Z) (st : caches) :
  cache_ok st → 0 < mantissa < 2 ^ 64 → - 2 ^ 32 < power2 < 2 ^ 32 →
  1 ≤ precision →
  10 ^ (n - 1) ≤ scaled mantissa power2 < 10 ^ n →
  let R :=
    if decide (precision < n)
    then round_half_even (scaled mantissa power2) (10 ^ (n - precision))
    else scaled mantissa power2 * 10 ^ (precision - n) in
  if decide (R < 10 ^ precision) then
    ∃ st', fp_btod mantissa power2 precision st
           = Some (render (sig_digits precision R)
                     (n - 1 + if decide (power2 < 0) then power2 else 0), st')
           ∧ cache_ok st'
  else fp_btod mantissa power2 precision st = None.
Proof. apply fp_btod_spec. Qed.

Lemma fp_btod_rounds_half_even_witness :
  ∃ st', fp_btod 5 (-2) 2 no_caches = Some ("1.2e+00"%string, st') ∧ cache_ok st'.
Proof.
  exact (fp_btod_rounds_half_even 5 (-2) 2 3 no_caches cache_ok_empty
           ltac:(by vm_compute) ltac:(by vm_compute) ltac:(lia)
           ltac:(by vm_compute)).
Defined.

(** X12: for a bit pattern whose exponent field is not all ones,
    [ieee_btod] prints a space or [-] for the sign bit followed by the
    [fp_btod] text of the decoded number: the mantissa field, plus the
    implicit bit [2^mbits] when the exponent field is nonzero, scaled by
    two to the power [max(exp, 1) - (2^(ebits-1) - 2 + mbits)]. *)
Theorem ieee_btod_decodes (val ebits mbits digits : Z) (st : caches) :
  0 ≤ mbits → 2 ≤ ebits ≤ 31 → ebits + mbits < 64 →
  (u64 val / 2 ^ mbits) mod 2 ^ ebits ≠ 2 ^ ebits - 1 →
  ieee_btod val ebits mbits digits st =
    '(s, st) ←
      fp_btod
        (u64 val mod 2 ^ mbits
         + (if decide ((u64 val / 2 ^ mbits) mod 2 ^ ebits ≠ 0)
            then 2 ^ mbits else 0))
        ((if decide ((u64 val / 2 ^ mbits) mod 2 ^ ebits ≠ 0)
          then (u64 val / 2 ^ mbits) mod 2 ^ ebits - 1 else 0)
         - (2 ^ (ebits - 1) - 2 + mbits))
        digits st;
    Some ((if Z.testbit (u64 val) (ebits + mbits) then "-" else " ") +:+ s, st)%string.
Proof. apply ieee_btod_finite. Qed.

Lemma ieee_btod_decodes_witness :
  ieee_btod 0xc0490fdb 8 23 9 no_caches =
    '(s, st) ← fp_btod 13176795 (-22) 9 no_caches; Some (("-" +:+ s)%string, st).
Proof.
  exact (ieee_btod_decodes 0xc0490fdb 8 23 9 no_caches
           ltac:(lia) ltac:(lia) ltac:(lia) ltac:(by vm_compute)).
Defined.

(** X13: whatever text [ieee_btod], [float_btod] or [double_btod] returns
    is a sign followed by [NaN] or [Inf], or a sign, one digit, a point,
    [digits - 1] more digits, [e], a sign and at least two exponent
    digits. *)
Theorem returned_text_grammar (st : caches) :
  cache_ok st →
  (∀ val ebits mbits digits s st',
     0 ≤ mbits → 2 ≤ ebits ≤ 31 → ebits + mbits < 64 → 1 ≤ digits →
     ieee_btod val ebits mbits digits st = Some (s, st') →
     btod_grammar (Z.to_nat digits) s = true) ∧
  (∀ val s st', float_btod val st = Some (s, st') → btod_grammar 9 s = true) ∧
  (∀ val s st', double_btod val st = Some (s, st') → btod_grammar 17 s = true).
Proof.
  intros Hst. split; [|split].
  - intros. by eapply ieee_btod_grammar.
  - intros val s st'. destruct (entry_points_grammar st s st' Hst) as [Hf _].
    apply Hf.
  - intros val s st'. destruct (entry_points_grammar st s st' Hst) as [_ Hd].
    apply Hd.
Qed.

Lemma returned_text_grammar_witness :
  btod_grammar 9 " 1.00000000e+00" = true ∧
  btod_grammar 17 "-1.5000000000000000e+00" = true.
Proof.
  destruct (returned_text_grammar no_caches cache_ok_empty) as (_ & Hf & Hd).
  split.
  - eapply (Hf 0x3f800000). by vm_compute.
  - eapply (Hd 0xbff8000000000000). by vm_compute.
Defined.

(** X14: the sign bit changes nothing but the sign character: a pattern
    with the sign bit clear gives a space followed by some text exactly
    when the same pattern with the sign bit set gives [-] followed by that
    text, with the same caches. *)
Theorem sign_bit_only_sign (v ebits mbits digits : Z) (st : caches)
    (body : string) (st' : caches) :
  0 ≤ mbits → 2 ≤ ebits ≤ 31 → ebits + mbits < 64 →
  0 ≤ v < 2 ^ (ebits + mbits) →
  ieee_btod v ebits mbits digits st = Some (String " " body, st')
  ↔ ieee_btod (v + 2 ^ (ebits + mbits)) ebits mbits digits st
    = Some (String "-" body, st').
Proof. apply ieee_btod_sign. Qed.

Lemma sign_bit_only_sign_witness :
  ∃ body st',
    ieee_btod 0x3f800000 8 23 9 no_caches = Some (String " " body, st') ∧
    ieee_btod (0x3f800000 + 2 ^ (8 + 23)) 8 23 9 no_caches
      = Some (String "-" body, st').
Proof.
  eexists _, _. split; [by vm_compute|].
  apply (sign_bit_only_sign 0x3f800000 8 23 9 no_caches);
    [lia | lia | lia | by vm_compute | by vm_compute].
Defined.

(** X15: the caches are transparent to the conversion: started from any
    two well-formed caches, [ieee_btod] (hence [float_btod] and
    [double_btod]) returns the same text or fails in both; a call that
    returns leaves well-formed caches that still hold every entry they
    held before. *)
Theorem btod_cache_transparent (val ebits mbits digits : Z) (st1 st2 : caches) :
  cache_ok st1 → cache_ok st2 →
  fst <$> ieee_btod val ebits mbits digits st1
    = fst <$> ieee_btod val ebits mbits digits st2 ∧
  ∀ s st', ieee_btod val ebits mbits digits st1 = Some (s, st') →
           cache_ok st' ∧ cache_grows st1 st'.
Proof.
  intros H1 H2. destruct (ieee_btod_total val ebits mbits digits) as [[s|] H].
  - destruct (H st1 H1) as (st1' & E1 & Hok & Hgr).
    destruct (H st2 H2) as (st2' & E2 & _). rewrite E1, E2. split; [done|].
    intros s0 st0 [= <- <-]. done.
  - rewrite (H st1 H1), (H st2 H2). split; [done|]. intros ?? [=].
Qed.

Lemma btod_cache_transparent_witness :
  fst <$> float_btod 0x40490fdb no_caches
  = fst <$> float_btod 0x40490fdb (set_powers 5 2 [5; 2] no_caches).
Proof.
  apply (btod_cache_transparent 0x40490fdb 8 23 9); [apply cache_ok_empty|].
  apply cache_ok_set; [by right | apply cache_ok_empty | solve_digits | by vm_compute].
Defined.

(** X16: every text [float_btod] returns has a fixed width: 4 characters
    when the exponent field is all ones (a sign and [NaN] or [Inf]), 15
    otherwise (a sign, nine digits, a point and a two-digit signed
    exponent). *)
Theorem float_btod_width (val : Z) (st : caches) (s : string) (st' : caches) :
  cache_ok st → float_btod val st = Some (s, st') →
  String.length s =
    if decide ((u32 val / 2 ^ 23) mod 2 ^ 8 = 255) then 4%nat else 15%nat.
Proof. apply float_btod_length. Qed.

Lemma float_btod_width_witness :
  String.length " 1.00000000e+00" = 15%nat ∧ String.length "-Inf" = 4%nat.
Proof.
  split.
  - refine (float_btod_width 0x3f800000 no_caches _ _ cache_ok_empty _).
    by vm_compute.
  - refine (float_btod_width 0xff800000 no_caches _ _ cache_ok_empty _).
    by vm_compute.
Defined.
